(** * inhouse_bot: the queue cog

    A shallow embedding of [inhouse_bot/cogs/queue_cog.py]: the matchmaking
    orchestrator [run_matchmaking_logic], the queue display [send_queue] and
    the two game commands [won] and [cancel_game].

    The cog talks to collaborators that live in other modules of the
    repository ([game_queue], [matchmaking_logic], [validation_dialog],
    [bot_orm]).  The matchmaker, the persistence layer and the users'
    reactions are parameters of the development; the waiting pool and the
    ready-check state machine are modelled from the specification and marked
    as such. *)

From Stdlib Require Import ZArith Floats.
From stdpp Require Import base list gmap sets strings.

Set Warnings "-inexact-float".
Open Scope Z_scope.

(** ** Data model *)

(** [roles_list] of [common_utils]: the five positions of a side. *)
Inductive Role := TOP | JGL | MID | BOT | SUP.

#[global] Instance Role_eq_dec : EqDecision Role.
Proof. solve_decision. Defined.

Definition roles_list : list Role := [TOP; JGL; MID; BOT; SUP].

Inductive Side := BLUE | RED.

(** A row of the queue table: one participant waiting for one role in one
    channel.  [ready_check_id] is the id of the ready-check message that
    currently reserves the row, if any. *)
Record QueuePlayer := mkQueuePlayer {
  qp_player_id : Z;
  qp_name : string;
  qp_role : Role;
  qp_channel_id : Z;
  qp_queue_time : Z;
  qp_ready_check_id : option Z
}.

(** The attributes of a game object that the cog reads.  The two scores are
    Python floats, kept as binary64 values. *)
Record Game := mkGame {
  game_id : Z;
  player_ids_list : list Z;
  blue_expected_winrate : float;
  matchmaking_score : float;
  winner : option Side
}.

(** [commands.Context]: the channel, the guild and the author of a command. *)
Record Context := mkContext {
  channel_id : Z;
  guild_id : Z;
  author_id : Z
}.

(** What the cog writes to a channel, with the values it formats. *)
Inductive Message :=
| QueueEmbed (rows : list (Role * list string))
| MatchFound (player_ids : list Z) (blue_winrate_percent : float)
| GameValidated (id : Z)
| PlayerCancelled (player_id : Z)
| CheckTimedOut
| NotStarted (winrate_percent : float)
| AlreadyScored
| NotInOngoingGame.

(** The calls the cog makes on its collaborators, in the order it makes
    them. *)
Inductive Action :=
| Send (channel : Z) (message_id : Z) (content : Message)
| DeleteMessage (message_id : Z)
| StartReadyCheck (player_ids : list Z) (channel : Z) (ready_check_message_id : Z)
| CheckmarkValidation (message_id : Z) (validating_players_ids : list Z)
                      (validation_threshold : nat) (timeout : Z)
| SessionAdd (game : Game)
| ValidateReadyCheck (ready_check_id : Z)
| CancelReadyCheck (ready_check_id : Z) (ids_to_drop : gset Z)
                   (channel : option Z) (server : option Z)
| ScoreGameFromWinningPlayer (player_id : Z) (server : Z).

Definition is_start_ready_check (a : Action) : bool :=
  match a with StartReadyCheck _ _ _ => true | _ => false end.

Definition is_queue_mutation (a : Action) : bool :=
  match a with
  | StartReadyCheck _ _ _ | ValidateReadyCheck _ | CancelReadyCheck _ _ _ _ => true
  | _ => false
  end.

(** The state the cog reads and writes: the queue table, the committed
    games, the cog's cache of queue messages, the id the next sent message
    gets, and the calls made so far. *)
Record World := mkWorld {
  queue_players : list QueuePlayer;
  games : list Game;
  latest_queue_messages : gmap Z Z;
  next_message_id : Z;
  log : list Action
}.

Definition set_queue_players (f : list QueuePlayer → list QueuePlayer) (w : World) : World :=
  mkWorld (f (queue_players w)) (games w) (latest_queue_messages w)
          (next_message_id w) (log w).

Definition set_games (gs : list Game) (w : World) : World :=
  mkWorld (queue_players w) gs (latest_queue_messages w) (next_message_id w) (log w).

Definition set_latest_queue_message (channel message : Z) (w : World) : World :=
  mkWorld (queue_players w) (games w) (<[channel := message]> (latest_queue_messages w))
          (next_message_id w) (log w).

Definition record (a : Action) (w : World) : World :=
  mkWorld (queue_players w) (games w) (latest_queue_messages w)
          (next_message_id w) (log w ++ [a]).

(** [ctx.send]: the message gets the next id. *)
Definition ctx_send (ctx : Context) (content : Message) (w : World) : Z * World :=
  let message_id := next_message_id w in
  (message_id,
   mkWorld (queue_players w) (games w) (latest_queue_messages w)
           (message_id + 1)
           (log w ++ [Send (channel_id ctx) message_id content])).

(** How a call of the cog ends. *)
Inductive Exn := PersistenceError | StopIteration | NotParticipant.

Inductive Outcome :=
| Returned (w : World)
| Raised (e : Exn) (w : World)
| OutOfFuel (w : World).

Definition world_of (o : Outcome) : World :=
  match o with Returned w | Raised _ w | OutOfFuel w => w end.

(** ** The waiting pool *)

Definition waiting (qp : QueuePlayer) : Prop := qp_ready_check_id qp = None.

#[global] Instance waiting_dec qp : Decision (waiting qp).
Proof. unfold waiting. apply _. Defined.

Definition set_ready_check_id (rc : option Z) (qp : QueuePlayer) : QueuePlayer :=
  mkQueuePlayer (qp_player_id qp) (qp_name qp) (qp_role qp) (qp_channel_id qp)
                (qp_queue_time qp) rc.

(** Modelled from the spec: the [GameQueue] class is not under src/.  It is
    the view of one channel's waiting pool (section 4.1, snapshot): the rows of
    the channel that no ready check reserves, in queue order. *)
Definition GameQueue (channel : Z) (qps : list QueuePlayer) : list QueuePlayer :=
  filter (λ qp, qp_channel_id qp = channel ∧ waiting qp) qps.

(** Modelled from the spec: [GameQueue.queue_players_dict], the role to
    ordered participants view of section 4.1. *)
Definition queue_players_dict (queue : list QueuePlayer) : list (Role * list QueuePlayer) :=
  map (λ r, (r, filter (λ qp, qp_role qp = r) queue)) roles_list.

(** Modelled from the spec: section 4.1, [dequeue(participant, channel)]
    removes all of the participant's entries in that channel, here for every
    participant of a set. *)
Definition dequeue (participants : gset Z) (channel : Z)
    (qps : list QueuePlayer) : list QueuePlayer :=
  filter (λ qp, ¬ (waiting qp ∧ qp_player_id qp ∈ participants
                    ∧ qp_channel_id qp = channel)) qps.

(** Modelled from the spec: section 4.1, [dequeue_everywhere(participant)]
    removes all of the participant's entries across every channel. *)
Definition dequeue_everywhere (participants : gset Z)
    (qps : list QueuePlayer) : list QueuePlayer :=
  filter (λ qp, ¬ (waiting qp ∧ qp_player_id qp ∈ participants)) qps.

(** Modelled from the spec: [game_queue.start_ready_check] is not under
    src/.  Section 4.3, entry: reserve the participants by taking every
    waiting entry they hold, in every channel, out of the waiting pool.  A
    reserved row stays in the table under the id of the ready check. *)
Definition start_ready_check (player_ids : list Z) (channel : Z)
    (ready_check_message_id : Z) (qps : list QueuePlayer) : list QueuePlayer :=
  map (λ qp, if decide (waiting qp ∧ qp_player_id qp ∈ player_ids)
             then set_ready_check_id (Some ready_check_message_id) qp
             else qp) qps.

(** Modelled from the spec: [game_queue.validate_ready_check] is not under
    src/.  Section 4.3, Validated: the proposal is discarded, its reserved
    entries never return to the pool. *)
Definition validate_ready_check (ready_check_id : Z)
    (qps : list QueuePlayer) : list QueuePlayer :=
  filter (λ qp, qp_ready_check_id qp ≠ Some ready_check_id) qps.

(** Modelled from the spec: section 4.3, re-queue: the entries a ready check
    reserved return to the pool, in their original position. *)
Definition requeue (ready_check_id : Z) (qps : list QueuePlayer) : list QueuePlayer :=
  map (λ qp, if decide (qp_ready_check_id qp = Some ready_check_id)
             then set_ready_check_id None qp else qp) qps.

(** Modelled from the spec: [game_queue.cancel_ready_check] is not under
    src/.  Section 4.3, Cancelled and TimedOut: every reserved entry goes
    back to its place in the pool, then the drop set is removed, from the
    given channel when the call names one (Cancelled) and from every channel
    when it does not (TimedOut, the call names the server instead). *)
Definition cancel_ready_check (ready_check_id : Z) (ids_to_drop : gset Z)
    (channel server : option Z) (qps : list QueuePlayer) : list QueuePlayer :=
  match channel with
  | Some c => dequeue ids_to_drop c (requeue ready_check_id qps)
  | None => dequeue_everywhere ids_to_drop (requeue ready_check_id qps)
  end.

(** No row of the table is reserved under [id]: the id of a message that
    has not been sent yet. *)
Definition fresh_id (id : Z) (qps : list QueuePlayer) : Prop :=
  Forall (λ qp, qp_ready_check_id qp ≠ Some id) qps.

(** The rows of a channel, reserved or not: the measure of the retry. *)
Definition channel_rows (channel : Z) (qps : list QueuePlayer) : list QueuePlayer :=
  filter (λ qp, qp_channel_id qp = channel) qps.

(** ** The ready check *)

(** Modelled from the spec: section 3, the confirmation state of a reserved
    participant in a proposal. *)
Inductive Confirmation := pending | accepted | declined.

#[global] Instance Confirmation_eq_dec : EqDecision Confirmation.
Proof. solve_decision. Defined.

(** A reaction on the ready-check message: who reacted, with which of the
    two marks, and how long after the proposal was created (the arguments of
    section 4.3's [Confirm], with their time of arrival). *)
Record Reaction := mkReaction {
  r_time : Z;
  r_user : Z;
  r_accept : bool
}.

(** Modelled from the spec: section 4.3, the states of a proposal.  An open
    proposal holds the confirmation of every reserved participant; the two
    failed outcomes hold the participants to drop. *)
Inductive ProposalState :=
| Proposed (confirmations : gmap Z Confirmation)
| Validated
| Cancelled (drop : gset Z)
| TimedOut (drop : gset Z).

(** Modelled from the spec: section 4.3, the participants whose confirmation
    is [c] (the accepted count, the decliners, the participants still
    pending). *)
Definition in_state (c : Confirmation) (conf : gmap Z Confirmation) : gset Z :=
  dom (filter (λ kv, kv.2 = c) conf).

(** Modelled from the spec: section 4.3, entry: every reserved participant
    starts [pending]. *)
Definition initial_confirmations (players : list Z) : gmap Z Confirmation :=
  gset_to_gmap pending (list_to_set players).

(** Modelled from the spec: section 4.3, [Confirm(participant, accept)] and
    the deadline.  A confirmation counts only while the proposal is
    [Proposed], only from a reserved participant and only before the
    deadline; it overwrites the participant's state; the proposal is
    validated when the accepted count reaches the threshold and nobody has
    declined, and cancelled as soon as somebody has declined, the drop set
    being the decliners observed then.  Terminal states are absorbing. *)
Definition confirm (threshold : nat) (timeout : Z)
    (st : ProposalState) (r : Reaction) : ProposalState :=
  match st with
  | Proposed conf =>
      if decide (timeout ≤ r_time r) then TimedOut (in_state pending conf)
      else match conf !! r_user r with
           | None => st
           | Some _ =>
               let conf' :=
                 <[r_user r := if r_accept r then accepted else declined]> conf in
               if decide ((threshold ≤ size (in_state accepted conf'))%nat
                          ∧ in_state declined conf' = ∅)
               then Validated
               else if decide (in_state declined conf' ≠ ∅)
               then Cancelled (in_state declined conf')
               else Proposed conf'
           end
  | _ => st
  end.

(** Modelled from the spec: section 4.3, the state of a proposal after the
    reactions [events], taken in their order of arrival. *)
Definition confirmations_after (players : list Z) (threshold : nat) (timeout : Z)
    (events : list Reaction) : ProposalState :=
  foldl (confirm threshold timeout) (Proposed (initial_confirmations players)) events.

(** Modelled from the spec: [checkmark_validation] of
    [cogs_utils/validation_dialog.py] is not under src/.  Section 4.3: it runs
    the proposal over the reactions that arrive and returns [ready] and the
    participants to drop: [True] for Validated, [False] and the decliners for
    Cancelled, [None] and the participants still pending when the deadline
    elapses while Proposed. *)
Definition checkmark_validation (events : list Reaction)
    (validating_players_ids : list Z) (validation_threshold : nat) (timeout : Z)
    : option bool * gset Z :=
  match confirmations_after validating_players_ids validation_threshold timeout events with
  | Validated => (Some true, ∅)
  | Cancelled drop => (Some false, drop)
  | TimedOut drop => (None, drop)
  | Proposed conf => (None, in_state pending conf)
  end.

(** [p] has accepted among the reactions [evs]. *)
Definition accepted_in (evs : list Reaction) (p : Z) : Prop :=
  ∃ r, r ∈ evs ∧ r_user r = p ∧ r_accept r = true.

(** What holds of a proposal that is still open after the reactions [evs]. *)
Record proposed_inv (players : list Z) (threshold : nat) (timeout : Z)
    (evs : list Reaction) (conf : gmap Z Confirmation) : Prop := {
  inv_dom : ∀ p, is_Some (conf !! p) ↔ p ∈ players;
  inv_accepted : ∀ p, conf !! p = Some accepted ↔ p ∈ players ∧ accepted_in evs p;
  inv_no_declined : ∀ p, conf !! p ≠ Some declined;
  inv_timely : ∀ r, r ∈ evs → r_time r < timeout;
  inv_no_decliner : ∀ r, r ∈ evs → r_user r ∈ players → r_accept r = true;
  inv_below : (0 < threshold)%nat → (size (in_state accepted conf) < threshold)%nat
}.

(** The three outcomes of a proposal. *)
Definition terminal (st : ProposalState) : Prop :=
  match st with Proposed _ => False | _ => True end.

(** ** The cog *)

Section QueueCog.

(** [matchmaking_logic.find_best_game], on the queue of a channel. *)
Variable find_best_game : list QueuePlayer → option Game.

(** The reactions the users add to a message, in order of arrival. *)
Variable reactions : Z → list Reaction.

(** [session.add] followed by the commit of [session_scope] ([bot_orm] is
    not under src/): the persisted game, or nothing when the store rejects
    the write, in which case [PersistenceError] is raised to the caller
    (spec, section 4.4, [commit]). *)
Variable session_add : list Game → Game → option Game.

(** [get_last_game] and [score_game_from_winning_player], on the stored
    games. *)
Variable get_last_game : Z → Z → list Game → option Game.
Variable score_game_from_winning_player : Z → Z → list Game → option (list Game).

(** [QueueCog.send_queue]: sends the queue of the channel, keeps the new
    message in the cache and deletes the message it replaces. *)
Definition send_queue (ctx : Context) (w : World) : World :=
  let channel := channel_id ctx in
  let old_queue_message := latest_queue_messages w !! channel in
  let queue := GameQueue channel (queue_players w) in
  let rows :=
    map (λ row : Role * list QueuePlayer, (row.1, map qp_name row.2))
        (queue_players_dict queue) in
  let '(message, w) := ctx_send ctx (QueueEmbed rows) w in
  let w := set_latest_queue_message channel message w in
  match old_queue_message with
  | Some old => record (DeleteMessage old) w
  | None => w
  end.

(** The two constants of the call of [checkmark_validation]. *)
Definition validation_threshold : nat := 10.
Definition ready_check_timeout : Z := 3 * 60.

(** [QueueCog.run_matchmaking_logic].  The coroutine calls itself after a
    declined or timed-out ready check; [fuel] bounds the depth of these calls.
    The three tests on [game] are the three branches of the source: a score
    that is neither below 0.2 nor at least 0.2 (a NaN) falls through them. *)
Fixpoint run_matchmaking_logic (fuel : nat) (ctx : Context) (w : World) : Outcome :=
  match fuel with
  | O => OutOfFuel w
  | S fuel =>
    let queue := GameQueue (channel_id ctx) (queue_players w) in
    match find_best_game queue with
    | None => Returned w
    | Some game =>
      if (matchmaking_score game <? 0.2)%float then
        let '(message, w) :=
          ctx_send ctx (MatchFound (player_ids_list game)
                                   (blue_expected_winrate game * 100)%float) w in
        let w :=
          record (StartReadyCheck (player_ids_list game) (channel_id ctx) message)
            (set_queue_players
               (start_ready_check (player_ids_list game) (channel_id ctx) message) w) in
        let w := send_queue ctx w in
        let '(ready, players_to_drop) :=
          checkmark_validation (reactions message) (player_ids_list game)
                               validation_threshold ready_check_timeout in
        let w :=
          record (CheckmarkValidation message (player_ids_list game)
                                      validation_threshold ready_check_timeout) w in
        match ready with
        | Some true =>
          let w := record (SessionAdd game) w in
          match session_add (games w) game with
          | None => Raised PersistenceError w
          | Some stored =>
            let w := set_games (games w ++ [stored]) w in
            let w :=
              record (ValidateReadyCheck message)
                (set_queue_players (validate_ready_check message) w) in
            let '(_, w) := ctx_send ctx (GameValidated (game_id stored)) w in
            Returned w
          end
        | Some false =>
          let w :=
            record (CancelReadyCheck message players_to_drop (Some (channel_id ctx)) None)
              (set_queue_players
                 (cancel_ready_check message players_to_drop
                                     (Some (channel_id ctx)) None) w) in
          match head (elements players_to_drop) with
          | None => Raised StopIteration w
          | Some first =>
            let '(_, w) := ctx_send ctx (PlayerCancelled first) w in
            run_matchmaking_logic fuel ctx w
          end
        | None =>
          let w :=
            record (CancelReadyCheck message players_to_drop None (Some (guild_id ctx)))
              (set_queue_players
                 (cancel_ready_check message players_to_drop
                                     None (Some (guild_id ctx))) w) in
          let '(_, w) := ctx_send ctx CheckTimedOut w in
          run_matchmaking_logic fuel ctx w
        end
      else if (0.2 <=? matchmaking_score game)%float then
        let '(_, w) :=
          ctx_send ctx (NotStarted ((0.5 + matchmaking_score game) * 100)%float) w in
        Returned w
      else Returned w
    end
  end.

(** The test [game and game.winner] of the two game commands. *)
Definition scored (game : option Game) : bool :=
  match game with
  | Some game => match winner game with Some _ => true | None => false end
  | None => false
  end.

(** [QueueCog.won]. *)
Definition won (ctx : Context) (w : World) : Outcome :=
  let game := get_last_game (author_id ctx) (guild_id ctx) (games w) in
  if scored game then
    let '(_, w) := ctx_send ctx AlreadyScored w in
    Returned w
  else
    let w := record (ScoreGameFromWinningPlayer (author_id ctx) (guild_id ctx)) w in
    match score_game_from_winning_player (author_id ctx) (guild_id ctx) (games w) with
    | Some gs => Returned (set_games gs w)
    | None => Raised NotParticipant w
    end.

(** [QueueCog.cancel_game]: past the test there is nothing but a TODO. *)
Definition cancel_game (ctx : Context) (w : World) : Outcome :=
  let game := get_last_game (author_id ctx) (guild_id ctx) (games w) in
  if scored game then
    let '(_, w) := ctx_send ctx NotInOngoingGame w in
    Returned w
  else Returned w.

End QueueCog.

(** ** One invocation of the orchestrator *)

Section Resolution.

Variable find_best_game : list QueuePlayer → option Game.
Variable reactions : Z → list Reaction.
Variable session_add : list Game → Game → option Game.

Local Abbreviation run := (run_matchmaking_logic find_best_game reactions session_add).

(** The world when the ready check of a proposal resolves: the players
    have been notified and reserved, the queue shown again. *)
Definition proposed_world (ctx : Context) (game : Game) (w : World) : World :=
  let message := next_message_id w in
  let w := (ctx_send ctx (MatchFound (player_ids_list game)
                                     (blue_expected_winrate game * 100)%float) w).2 in
  let w :=
    record (StartReadyCheck (player_ids_list game) (channel_id ctx) message)
      (set_queue_players
         (start_ready_check (player_ids_list game) (channel_id ctx) message) w) in
  let w := send_queue ctx w in
  record (CheckmarkValidation message (player_ids_list game)
                              validation_threshold ready_check_timeout) w.

(** The world after each way the ready check of a proposal resolves. *)
Definition cancelled_world (ctx : Context) (game : Game) (drop : gset Z) (first : Z)
    (w : World) : World :=
  let pw := proposed_world ctx game w in
  (ctx_send ctx (PlayerCancelled first)
     (record (CancelReadyCheck (next_message_id w) drop (Some (channel_id ctx)) None)
        (set_queue_players
           (cancel_ready_check (next_message_id w) drop (Some (channel_id ctx)) None)
           pw))).2.

Definition timed_out_world (ctx : Context) (game : Game) (drop : gset Z)
    (w : World) : World :=
  let pw := proposed_world ctx game w in
  (ctx_send ctx CheckTimedOut
     (record (CancelReadyCheck (next_message_id w) drop None (Some (guild_id ctx)))
        (set_queue_players
           (cancel_ready_check (next_message_id w) drop None (Some (guild_id ctx)))
           pw))).2.

Definition validated_world (ctx : Context) (game stored : Game) (w : World) : World :=
  let pw := proposed_world ctx game w in
  (ctx_send ctx (GameValidated (game_id stored))
     (record (ValidateReadyCheck (next_message_id w))
        (set_queue_players (validate_ready_check (next_message_id w))
           (set_games (games pw ++ [stored]) (record (SessionAdd game) pw))))).2.

Definition outcome_of_ready_check (ctx : Context) (game : Game) (w : World) :=
  checkmark_validation (reactions (next_message_id w)) (player_ids_list game)
                       validation_threshold ready_check_timeout.

(** The five ways one invocation goes. *)
Inductive invocation (fuel : nat) (ctx : Context) (w : World) : Prop :=
| inv_no_game :
    find_best_game (GameQueue (channel_id ctx) (queue_players w)) = None →
    run (S fuel) ctx w = Returned w →
    invocation fuel ctx w
| inv_unbalanced game :
    find_best_game (GameQueue (channel_id ctx) (queue_players w)) = Some game →
    (matchmaking_score game <? 0.2)%float = false →
    run (S fuel) ctx w
    = (if (0.2 <=? matchmaking_score game)%float
       then Returned (ctx_send ctx (NotStarted ((0.5 + matchmaking_score game) * 100)%float) w).2
       else Returned w) →
    invocation fuel ctx w
| inv_validated game drop :
    find_best_game (GameQueue (channel_id ctx) (queue_players w)) = Some game →
    (matchmaking_score game <? 0.2)%float = true →
    outcome_of_ready_check ctx game w = (Some true, drop) →
    run (S fuel) ctx w
    = match session_add (games (proposed_world ctx game w)) game with
      | None => Raised PersistenceError (record (SessionAdd game) (proposed_world ctx game w))
      | Some stored => Returned (validated_world ctx game stored w)
      end →
    invocation fuel ctx w
| inv_cancelled game drop :
    find_best_game (GameQueue (channel_id ctx) (queue_players w)) = Some game →
    (matchmaking_score game <? 0.2)%float = true →
    outcome_of_ready_check ctx game w = (Some false, drop) →
    run (S fuel) ctx w
    = match head (elements drop) with
      | None =>
        Raised StopIteration
          (record (CancelReadyCheck (next_message_id w) drop (Some (channel_id ctx)) None)
             (set_queue_players
                (cancel_ready_check (next_message_id w) drop (Some (channel_id ctx)) None)
                (proposed_world ctx game w)))
      | Some first => run fuel ctx (cancelled_world ctx game drop first w)
      end →
    invocation fuel ctx w
| inv_timed_out game drop :
    find_best_game (GameQueue (channel_id ctx) (queue_players w)) = Some game →
    (matchmaking_score game <? 0.2)%float = true →
    outcome_of_ready_check ctx game w = (None, drop) →
    run (S fuel) ctx w = run fuel ctx (timed_out_world ctx game drop w) →
    invocation fuel ctx w.

End Resolution.

(** ** Measures of a run *)

(** What the orchestrator relies on from the matchmaker (spec, section 4.2):
    a candidate is ten distinct participants taken from the queue it was
    given. *)
Definition matchmaker_sound (find_best_game : list QueuePlayer → option Game) : Prop :=
  ∀ queue game, find_best_game queue = Some game →
    NoDup (player_ids_list game)
    ∧ length (player_ids_list game) = 10%nat
    ∧ ∀ p, p ∈ player_ids_list game → ∃ qp, qp ∈ queue ∧ qp_player_id qp = p.

Definition ready_checks_started (l : list Action) : nat :=
  length (List.filter is_start_ready_check l).

(** The calls that validate a ready check. *)
Definition is_validate_ready_check (a : Action) : bool :=
  match a with ValidateReadyCheck _ => true | _ => false end.

(** ** A queue of fourteen rows *)

(** A matchmaker for the examples: the two longest-waiting participants of
    every role, when that makes ten distinct participants. *)
Definition first_two_per_role (queue : list QueuePlayer) : list QueuePlayer :=
  flat_map (λ row : Role * list QueuePlayer, take 2 row.2) (queue_players_dict queue).

Definition scenario_find (score : float) (queue : list QueuePlayer) : option Game :=
  let ids := map qp_player_id (first_two_per_role queue) in
  if decide (NoDup ids ∧ length ids = 10%nat)
  then Some (mkGame 0 ids 0.5 score None) else None.

Definition scenario_row (p : Z) (r : Role) (c : Z) : QueuePlayer :=
  mkQueuePlayer p "player" r c p None.

(** Ten participants wait in channel 100, two per role; three of them and
    one more also wait in channel 200. *)
Definition scenario_pool : list QueuePlayer :=
  [scenario_row 1 TOP 100; scenario_row 2 TOP 100; scenario_row 3 JGL 100;
   scenario_row 4 JGL 100; scenario_row 5 MID 100; scenario_row 6 MID 100;
   scenario_row 7 BOT 100; scenario_row 8 BOT 100; scenario_row 9 SUP 100;
   scenario_row 10 SUP 100; scenario_row 1 MID 200; scenario_row 3 JGL 200;
   scenario_row 8 SUP 200; scenario_row 11 TOP 200].

Definition scenario_world : World := mkWorld scenario_pool [] ∅ 1000 [].

Definition scenario_ctx : Context := mkContext 100 7 1.

Definition scenario_game (score : float) : Game :=
  mkGame 0 [1; 2; 3; 4; 5; 6; 7; 8; 9; 10] 0.5 score None.

Definition scenario_accepts (ps : list Z) : list Reaction :=
  map (λ p, mkReaction (p * 10) p true) ps.

(** Nine accept, then 3 declines at 120 and 4 declines at 130. *)
Definition scenario_decline (message : Z) : list Reaction :=
  if decide (message = 1000)
  then scenario_accepts [1; 2; 4; 5; 6; 7; 8; 9; 10]
       ++ [mkReaction 120 3 false; mkReaction 130 4 false]
  else [].

(** Seven accept in time, 8 accepts too late, 9 and 10 never answer. *)
Definition scenario_timeout (message : Z) : list Reaction :=
  if decide (message = 1000)
  then scenario_accepts [1; 2; 3; 4; 5; 6; 7] ++ [mkReaction 200 8 true]
  else [].

(** All ten accept. *)
Definition scenario_accept (message : Z) : list Reaction :=
  scenario_accepts [1; 2; 3; 4; 5; 6; 7; 8; 9; 10].

(** A store that numbers the games it takes, and one that rejects them. *)
Definition scenario_store (gs : list Game) (g : Game) : option Game :=
  Some (mkGame (Z.of_nat (length gs) + 1) (player_ids_list g)
               (blue_expected_winrate g) (matchmaking_score g) (winner g)).

Definition scenario_store_down (gs : list Game) (g : Game) : option Game := None.

(** The last stored game a player is part of, and scoring it for blue. *)
Definition scenario_last_game (player server : Z) (gs : list Game) : option Game :=
  last (filter (λ g, player ∈ player_ids_list g) gs).

Definition scenario_score (player server : Z) (gs : list Game) : option (list Game) :=
  match scenario_last_game player server gs with
  | Some g =>
    Some (map (λ g', if decide (game_id g' = game_id g)
                     then mkGame (game_id g') (player_ids_list g')
                                 (blue_expected_winrate g') (matchmaking_score g')
                                 (Some BLUE)
                     else g') gs)
  | None => None
  end.

Definition scenario_played (w : option Side) : World :=
  mkWorld [] [mkGame 1 [1; 2; 3; 4; 5; 6; 7; 8; 9; 10] 0.5 0.1 w] ∅ 1000 [].

(** Decide a closed proposition by evaluation. *)
Ltac by_evaluation :=
  match goal with
  | |- ?P => refine (bool_decide_eq_true_1 P _); vm_compute; reflexivity
  end.

(** ** The queue commands and the queue display *)

Section QueueCommands.

Variable find_best_game : list QueuePlayer → option Game.
Variable reactions : Z → list Reaction.
Variable session_add : list Game → Game → option Game.

(** [game_queue.add_player] and [game_queue.remove_player], as the change
    they make to the queue table when they return. *)
Variable add_player : Z → string → Role → Z → Z → list QueuePlayer → list QueuePlayer.
Variable remove_player : Z → Z → list QueuePlayer → list QueuePlayer.

(** [QueueCog.queue]: the author is queued for [role] (the converted
    argument of the command) under the name [author_name] of
    [ctx.author.name], matchmaking runs, and the queue is shown again once it
    has returned; an exception of the matchmaking ends the command. *)
Definition queue (fuel : nat) (ctx : Context) (author_name : string) (role : Role)
    (w : World) : Outcome :=
  let w :=
    set_queue_players
      (add_player (author_id ctx) author_name role (channel_id ctx) (guild_id ctx)) w in
  match run_matchmaking_logic find_best_game reactions session_add fuel ctx w with
  | Returned w => Returned (send_queue ctx w)
  | Raised e w => Raised e w
  | OutOfFuel w => OutOfFuel w
  end.

(** [QueueCog.leave_queue]. *)
Definition leave_queue (ctx : Context) (w : World) : Outcome :=
  let w := set_queue_players (remove_player (author_id ctx) (channel_id ctx)) w in
  Returned (send_queue ctx w).

End QueueCommands.

(** The rows [send_queue] puts in its embed: for every role, the names of
    the channel's queue in that role. *)
Definition queue_rows (channel : Z) (qps : list QueuePlayer) : list (Role * list string) :=
  map (λ row : Role * list QueuePlayer, (row.1, map qp_name row.2))
      (queue_players_dict (GameQueue channel qps)).

(** The queue messages sent to a channel, and the messages deleted. *)
Definition queue_message_id (channel : Z) (a : Action) : option Z :=
  match a with
  | Send c m (QueueEmbed _) => if decide (c = channel) then Some m else None
  | _ => None
  end.

Definition deleted_id (a : Action) : option Z :=
  match a with DeleteMessage m => Some m | _ => None end.

Definition queue_message_ids (channel : Z) (l : list Action) : list Z :=
  omap (queue_message_id channel) l.

Definition deleted_ids (l : list Action) : list Z := omap deleted_id l.

(** A queue message of the channel that was sent and not deleted. *)
Definition live_queue_message (channel : Z) (l : list Action) (m : Z) : Prop :=
  m ∈ queue_message_ids channel l ∧ m ∉ deleted_ids l.

(** The queue display is coherent when, in every channel, the live queue
    message is exactly the one the cog has in its cache; no message id is
    used for two channels, and every id used is older than the next one. *)
Record display_coherent (w : World) : Prop := {
  dc_sent_below : ∀ c m, m ∈ queue_message_ids c (log w) → m < next_message_id w;
  dc_one_channel : ∀ c c' m,
    m ∈ queue_message_ids c (log w) → m ∈ queue_message_ids c' (log w) → c = c';
  dc_deleted_below : ∀ m, m ∈ deleted_ids (log w) → m < next_message_id w;
  dc_cached : ∀ c m,
    latest_queue_messages w !! c = Some m ↔ live_queue_message c (log w) m
}.

(** Actions that are neither a queue message nor a deletion keep the display
    coherent, whatever else changes, as long as ids do not go back. *)
Definition display_neutral (a : Action) : Prop :=
  (∀ c, queue_message_id c a = None) ∧ deleted_id a = None.

(** The channel an action is addressed to is [c], when it has one; scoring
    a game is no action of the orchestrator. *)
Definition in_channel (c : Z) (a : Action) : Prop :=
  match a with
  | Send c' _ _ | StartReadyCheck _ c' _ => c' = c
  | CancelReadyCheck _ _ (Some c') _ => c' = c
  | ScoreGameFromWinningPlayer _ _ => False
  | _ => True
  end.

(** The calls that close the ready check [message]: its validation and its
    cancellation. *)
Definition closes_ready_check (message : Z) (a : Action) : bool :=
  match a with
  | ValidateReadyCheck m | CancelReadyCheck m _ _ _ => bool_decide (m = message)
  | _ => false
  end.

(** The run ended on the store's error, which leaves the ready check of the
    rejected game open. *)
Definition left_open (o : Outcome) : bool :=
  match o with Raised PersistenceError _ => true | _ => false end.

(** Every ready check started in [l] is closed later in [l]; when
    [last_open] holds, a ready check may instead be followed by no call on
    the queue table at all. *)
Fixpoint ready_checks_closed (last_open : bool) (l : list Action) : Prop :=
  match l with
  | [] => True
  | a :: l =>
      match a with
      | StartReadyCheck _ _ message =>
          existsb (closes_ready_check message) l = true
          ∨ (last_open = true ∧ Forall (λ a, is_queue_mutation a = false) l)
      | _ => True
      end
      ∧ ready_checks_closed last_open l
  end.

(** Joining and leaving for the examples: a new row at the end of the table,
    and the rows of the player in the channel taken out. *)
Definition scenario_add_player (player : Z) (name : string) (role : Role)
    (channel server : Z) (qps : list QueuePlayer) : list QueuePlayer :=
  qps ++ [mkQueuePlayer player name role channel 0 None].

Definition scenario_remove_player (player channel : Z)
    (qps : list QueuePlayer) : list QueuePlayer :=
  filter (λ qp, ¬ (qp_player_id qp = player ∧ qp_channel_id qp = channel)) qps.

(** ** The score threshold *)

Lemma Prim2SF_threshold :
  Prim2SF 0.2 = S754_finite false 7205759403792794 (-55).
Proof. vm_compute. reflexivity. Qed.

Lemma SFleb_not_SFltb (m0 : positive) (e0 : Z) (y : spec_float) :
  SFleb (S754_finite false m0 e0) y = true →
  SFltb y (S754_finite false m0 e0) = false.
Proof.
  unfold SFleb, SFltb.
  destruct y as [s|s| |s m e]; cbn [SFcompare]; try discriminate; try reflexivity.
  all: destruct s; try discriminate; try reflexivity.
  rewrite (Z.compare_antisym e e0).
  destruct (e ?= e0)%Z; cbn [CompOpp]; try discriminate; try reflexivity.
  change (PosDef.Pos.compare_cont Eq m0 m) with (Pos.compare m0 m).
  change (PosDef.Pos.compare_cont Eq m m0) with (Pos.compare m m0).
  rewrite (Pos.compare_antisym m0 m).
  destruct (m0 ?= m)%positive; cbn [CompOpp]; try discriminate; reflexivity.
Qed.

(** A score that is 0.2 or greater is not below 0.2. *)
Lemma score_at_least_not_below (score : float) :
  (0.2 <=? score)%float = true → (score <? 0.2)%float = false.
Proof.
  rewrite leb_spec, ltb_spec, Prim2SF_threshold. apply SFleb_not_SFltb.
Qed.

(** ** The waiting pool: reserving and releasing *)

Lemma set_ready_check_id_waiting qp :
  waiting qp → set_ready_check_id None qp = qp.
Proof. destruct qp as [p n r c t rc]. unfold waiting. simpl. by intros ->. Qed.

Lemma requeue_start_ready_check player_ids channel id qps :
  requeue id (start_ready_check player_ids channel id qps) = requeue id qps.
Proof.
  unfold requeue, start_ready_check. rewrite map_map. apply map_ext. intros qp.
  destruct (decide (waiting qp ∧ qp_player_id qp ∈ player_ids)) as [[Hw _]|_]; [|done].
  simpl. rewrite decide_True by done.
  unfold waiting in Hw. rewrite Hw. rewrite decide_False by done.
  destruct qp; simpl in *; by subst.
Qed.

Lemma requeue_fresh id qps : fresh_id id qps → requeue id qps = qps.
Proof.
  intros Hfresh. unfold fresh_id in Hfresh. rewrite Forall_forall in Hfresh.
  unfold requeue. rewrite <- (map_id qps) at 2.
  apply map_ext_in. intros qp Hin. apply list_elem_of_In in Hin.
  by rewrite decide_False by by apply Hfresh.
Qed.

(** With a fresh id, reserving and then cancelling leaves exactly the drop. *)
Lemma cancel_start_channel player_ids id drop c server qps :
  fresh_id id qps →
  cancel_ready_check id drop (Some c) server (start_ready_check player_ids c id qps)
  = dequeue drop c qps.
Proof.
  intros Hf. unfold cancel_ready_check.
  by rewrite requeue_start_ready_check, requeue_fresh.
Qed.

Lemma cancel_start_everywhere player_ids id drop c server qps :
  fresh_id id qps →
  cancel_ready_check id drop None server (start_ready_check player_ids c id qps)
  = dequeue_everywhere drop qps.
Proof.
  intros Hf. unfold cancel_ready_check.
  by rewrite requeue_start_ready_check, requeue_fresh.
Qed.

Lemma channel_rows_requeue c id qps :
  length (channel_rows c (requeue id qps)) = length (channel_rows c qps).
Proof.
  unfold channel_rows, requeue. induction qps as [|qp qps IH]; [done|].
  simpl. rewrite !filter_cons.
  assert (qp_channel_id (if decide (qp_ready_check_id qp = Some id)
                         then set_ready_check_id None qp else qp) = qp_channel_id qp) as ->
    by by case_decide.
  case_decide; simpl; by rewrite IH.
Qed.

Lemma GameQueue_requeue c id qps qp :
  qp ∈ GameQueue c qps → qp ∈ GameQueue c (requeue id qps).
Proof.
  unfold GameQueue. rewrite !list_elem_of_filter. intros [[Hc Hw] Hin].
  split; [done|]. unfold requeue. apply list_elem_of_In, in_map_iff.
  exists qp. split; [|by apply list_elem_of_In].
  unfold waiting in Hw. by rewrite decide_False by by rewrite Hw.
Qed.

Lemma filter_swap {A} (P Q : A → Prop)
    `{!∀ x, Decision (P x), !∀ x, Decision (Q x)} (l : list A) :
  filter P (filter Q l) = filter Q (filter P l).
Proof. rewrite !list_filter_filter. apply list_filter_iff. intros x. tauto. Qed.

(** Cancelling a ready check drops a row of the channel as soon as the drop
    set holds a participant who was waiting in the channel. *)
Lemma cancel_shrinks_channel player_ids id drop scope server c qps qp :
  qp ∈ GameQueue c qps → qp_player_id qp ∈ drop →
  scope = None ∨ scope = Some c →
  (length (channel_rows c
     (cancel_ready_check id drop scope server (start_ready_check player_ids c id qps)))
   < length (channel_rows c qps))%nat.
Proof.
  intros Hqp Hdrop Hscope. unfold cancel_ready_check.
  rewrite requeue_start_ready_check.
  rewrite <- (channel_rows_requeue c id qps).
  apply (GameQueue_requeue c id) in Hqp.
  unfold GameQueue in Hqp. apply list_elem_of_filter in Hqp as [[Hc Hw] Hin].
  unfold channel_rows, dequeue, dequeue_everywhere.
  destruct Hscope as [-> | ->]; rewrite filter_swap;
    apply (length_filter_lt _ _ qp); try (apply list_elem_of_filter; done);
    naive_solver.
Qed.

(** ** The ready check: what a proposal still open has seen *)

Lemma elem_of_in_state c (conf : gmap Z Confirmation) p :
  p ∈ in_state c conf ↔ conf !! p = Some c.
Proof.
  unfold in_state. rewrite elem_of_dom. split.
  - intros [x Hx]. apply map_lookup_filter_Some in Hx as [Hx Hc].
    simpl in Hc. by subst.
  - intros Hp. exists c. by apply map_lookup_filter_Some.
Qed.

Lemma in_state_declined_empty (conf : gmap Z Confirmation) :
  in_state declined conf = ∅ ↔ ∀ p, conf !! p ≠ Some declined.
Proof.
  split.
  - intros He p Hp. apply elem_of_in_state in Hp. rewrite He in Hp. set_solver.
  - intros Hn. apply set_eq. intros p. rewrite elem_of_in_state. set_solver.
Qed.

Lemma initial_confirmations_lookup players p c :
  initial_confirmations players !! p = Some c ↔ p ∈ players ∧ c = pending.
Proof.
  unfold initial_confirmations. rewrite lookup_gset_to_gmap_Some.
  rewrite elem_of_list_to_set. split; intros [? ?]; by subst.
Qed.

Lemma proposed_inv_initial players threshold timeout :
  proposed_inv players threshold timeout [] (initial_confirmations players).
Proof.
  split.
  - intros p. split.
    + intros [c Hc]. by apply initial_confirmations_lookup in Hc as [? _].
    + intros Hp. exists pending. by apply initial_confirmations_lookup.
  - intros p. split.
    + intros Hc. by apply initial_confirmations_lookup in Hc as [_ ?].
    + intros [_ (r & Hr & _)]. by apply elem_of_nil in Hr.
  - intros p Hc. by apply initial_confirmations_lookup in Hc as [_ ?].
  - intros r Hr. by apply elem_of_nil in Hr.
  - intros r Hr. by apply elem_of_nil in Hr.
  - intros Hpos.
    assert (in_state accepted (initial_confirmations players) = ∅) as ->.
    { apply set_eq. intros p. rewrite elem_of_in_state, initial_confirmations_lookup.
      split; [by intros [_ ?]|]. intros Hp. by apply not_elem_of_empty in Hp. }
    by rewrite size_empty.
Qed.

(** One timely reaction of a reserved participant that leaves the proposal
    open was an accept. *)
Lemma confirm_stays_proposed threshold timeout conf r conf' :
  (∀ p, conf !! p ≠ Some declined) →
  confirm threshold timeout (Proposed conf) r = Proposed conf' →
  r_time r < timeout ∧
  ((conf !! r_user r = None ∧ conf' = conf)
   ∨ (is_Some (conf !! r_user r) ∧ r_accept r = true
      ∧ conf' = <[r_user r := accepted]> conf
      ∧ ((0 < threshold)%nat → (size (in_state accepted conf') < threshold)%nat))).
Proof.
  intros Hnd Hstep. unfold confirm in Hstep.
  destruct (decide (timeout ≤ r_time r)) as [|Hlt]; [done|].
  split; [lia|].
  destruct (conf !! r_user r) as [c|] eqn:Hu.
  - destruct (decide (_ ∧ _)) as [|Hv] in Hstep; [done|].
    destruct (decide (_ ≠ ∅)) as [|Hc] in Hstep; [done|].
    injection Hstep as <-. right.
    assert (r_accept r = true) as Ha.
    { destruct (r_accept r); [done|]. exfalso. apply Hc.
      intros He. eapply in_state_declined_empty in He.
      apply He. apply lookup_insert_eq. }
    rewrite Ha in *. split_and!; eauto.
    intros _. apply dec_stable. intros Hge. apply Hv. split; [lia|].
    by apply dec_stable.
  - injection Hstep as <-. by left.
Qed.

Lemma proposed_invariant players threshold timeout evs conf :
  confirmations_after players threshold timeout evs = Proposed conf →
  proposed_inv players threshold timeout evs conf.
Proof.
  unfold confirmations_after. revert conf.
  induction evs as [|r evs IH] using rev_ind; intros conf.
  - simpl. intros [= <-]. apply proposed_inv_initial.
  - rewrite foldl_snoc.
    destruct (foldl _ _ evs) as [conf0| | |] eqn:Hprev; try done.
    specialize (IH conf0 eq_refl). destruct IH as [Hdom Hacc Hnd Htime Hdec Hbelow].
    intros Hstep. apply confirm_stays_proposed in Hstep as [Hlt Hcase]; [|done].
    destruct Hcase as [[Hnone ->] | (Hsome & Ha & -> & Hsize)].
    + assert (r_user r ∉ players) as Hnotin.
      { intros Hin. apply Hdom in Hin as [? ?]. congruence. }
      split; try done.
      * intros p. rewrite Hacc. split; intros [Hp (r0 & Hr0 & Hu & Hr0a)]; split; try done.
        -- exists r0. split_and!; try done. apply elem_of_app. by left.
        -- apply elem_of_app in Hr0 as [Hr0|Hr0]; [by exists r0|].
           apply list_elem_of_singleton in Hr0. subst. done.
      * intros r0 Hr0. apply elem_of_app in Hr0 as [Hr0|Hr0]; [by apply Htime|].
        apply list_elem_of_singleton in Hr0. by subst.
      * intros r0 Hr0 Hin. apply elem_of_app in Hr0 as [Hr0|Hr0]; [by apply Hdec|].
        apply list_elem_of_singleton in Hr0. by subst.
    + assert (r_user r ∈ players) as Hin by by apply Hdom.
      split.
      * intros p. rewrite <- Hdom. destruct (decide (r_user r = p)) as [<-|Hne].
        -- rewrite lookup_insert_eq. split; [done|]. intros _. by eexists.
        -- by rewrite lookup_insert_ne.
      * intros p. destruct (decide (r_user r = p)) as [<-|Hne].
        -- rewrite lookup_insert_eq. split; [|done]. intros _. split; [done|].
           exists r. split_and!; try done. apply elem_of_app. right.
           by apply list_elem_of_singleton.
        -- rewrite lookup_insert_ne by done. rewrite Hacc.
           split; intros [Hp (r0 & Hr0 & Hu & Hr0a)]; split; try done.
           ++ exists r0. split_and!; try done. apply elem_of_app. by left.
           ++ apply elem_of_app in Hr0 as [Hr0|Hr0]; [by exists r0|].
              apply list_elem_of_singleton in Hr0. subst. done.
      * intros p. destruct (decide (r_user r = p)) as [<-|Hne].
        -- by rewrite lookup_insert_eq.
        -- by rewrite lookup_insert_ne.
      * intros r0 Hr0. apply elem_of_app in Hr0 as [Hr0|Hr0]; [by apply Htime|].
        apply list_elem_of_singleton in Hr0. by subst.
      * intros r0 Hr0 Hin0. apply elem_of_app in Hr0 as [Hr0|Hr0]; [by apply Hdec|].
        apply list_elem_of_singleton in Hr0. by subst.
      * done.
Qed.

Lemma pending_iff players threshold timeout evs conf p :
  proposed_inv players threshold timeout evs conf →
  p ∈ in_state pending conf ↔ p ∈ players ∧ ¬ accepted_in evs p.
Proof.
  intros [Hdom Hacc Hnd _ _ _]. rewrite elem_of_in_state. split.
  - intros Hp. split; [apply Hdom; by eexists|].
    intros Ha. assert (conf !! p = Some accepted) as Hp'.
    { apply Hacc. split; [apply Hdom; by eexists|done]. }
    congruence.
  - intros [Hin Hna]. apply Hdom in Hin as [c Hc]. destruct c; [done| |].
    + exfalso. apply Hna. by apply Hacc in Hc as [_ ?].
    + by apply Hnd in Hc.
Qed.

Lemma confirm_terminal threshold timeout st r :
  terminal st → confirm threshold timeout st r = st.
Proof. by destruct st. Qed.

Lemma foldl_confirm_terminal threshold timeout st evs :
  terminal st → foldl (confirm threshold timeout) st evs = st.
Proof.
  intros Ht. induction evs as [|r evs IH] using rev_ind; [done|].
  by rewrite foldl_snoc, IH, confirm_terminal.
Qed.

(** A proposal that reached a terminal state did so on one reaction, from
    a proposal that was still open. *)
Lemma terminal_split players threshold timeout evs :
  terminal (confirmations_after players threshold timeout evs) →
  ∃ pre r post conf,
    evs = pre ++ r :: post
    ∧ confirmations_after players threshold timeout pre = Proposed conf
    ∧ confirm threshold timeout (Proposed conf) r
      = confirmations_after players threshold timeout evs.
Proof.
  unfold confirmations_after.
  induction evs as [|r evs IH] using rev_ind; [done|].
  rewrite foldl_snoc.
  destruct (foldl _ _ evs) as [conf0| | |] eqn:Hprev.
  - intros _. exists evs, r, [], conf0. by rewrite Hprev.
  - intros _. destruct IH as (pre & r0 & post & conf & -> & Hpre & Hstep); [done|].
    exists pre, r0, (post ++ [r]), conf. by rewrite <- app_assoc.
  - intros _. destruct IH as (pre & r0 & post & conf & -> & Hpre & Hstep); [done|].
    exists pre, r0, (post ++ [r]), conf. by rewrite <- app_assoc.
  - intros _. destruct IH as (pre & r0 & post & conf & -> & Hpre & Hstep); [done|].
    exists pre, r0, (post ++ [r]), conf. by rewrite <- app_assoc.
Qed.

Lemma in_state_declined_insert (conf : gmap Z Confirmation) p :
  (∀ q, conf !! q ≠ Some declined) →
  in_state declined (<[p := declined]> conf) = {[p]}.
Proof.
  intros Hnd. apply set_eq. intros q.
  rewrite elem_of_in_state, elem_of_singleton.
  destruct (decide (p = q)) as [<-|Hne].
  - by rewrite lookup_insert_eq.
  - rewrite lookup_insert_ne by done. split; [by intros ?%Hnd|congruence].
Qed.

Lemma in_state_declined_insert_accepted (conf : gmap Z Confirmation) p :
  (∀ q, conf !! q ≠ Some declined) →
  in_state declined (<[p := accepted]> conf) = ∅.
Proof.
  intros Hnd. apply in_state_declined_empty. intros q.
  destruct (decide (p = q)) as [<-|Hne].
  - by rewrite lookup_insert_eq.
  - by rewrite lookup_insert_ne.
Qed.

(** The three ways a reaction closes an open proposal. *)
Lemma confirm_closes threshold timeout conf r st :
  (∀ p, conf !! p ≠ Some declined) →
  confirm threshold timeout (Proposed conf) r = st → terminal st →
  (timeout ≤ r_time r ∧ st = TimedOut (in_state pending conf))
  ∨ (r_time r < timeout ∧ is_Some (conf !! r_user r) ∧ r_accept r = false
     ∧ st = Cancelled {[r_user r]})
  ∨ (r_time r < timeout ∧ is_Some (conf !! r_user r) ∧ r_accept r = true
     ∧ (threshold ≤ size (in_state accepted (<[r_user r := accepted]> conf)))%nat
     ∧ st = Validated).
Proof.
  intros Hnd Hstep Hterm. unfold confirm in Hstep.
  destruct (decide (timeout ≤ r_time r)) as [|Hlt]; [left; by subst|].
  right. destruct (conf !! r_user r) as [c|] eqn:Hu; [|by subst].
  destruct (r_accept r) eqn:Ha.
  - rewrite in_state_declined_insert_accepted in Hstep by done.
    destruct (decide (_ ∧ _)) as [[Hge _]|Hv] in Hstep.
    + right. split_and!; eauto; lia.
    + rewrite decide_False in Hstep by (intros ?; done). by subst.
  - rewrite in_state_declined_insert in Hstep by done.
    rewrite decide_False in Hstep.
    2:{ intros [_ He]. assert (r_user r ∈ (∅ : gset Z)) as Hin.
        { rewrite <- He. by apply elem_of_singleton. }
        by apply not_elem_of_empty in Hin. }
    rewrite decide_True in Hstep.
    2:{ intros He. assert (r_user r ∈ (∅ : gset Z)) as Hin.
        { rewrite <- He. by apply elem_of_singleton. }
        by apply not_elem_of_empty in Hin. }
    left. split_and!; eauto; lia.
Qed.

(** [checkmark_validation] answers [False] exactly on the first decline of
    a reserved participant before the deadline: the drop set is that
    participant, whatever arrives afterwards. *)
Lemma checkmark_validation_cancelled events players threshold timeout drop :
  checkmark_validation events players threshold timeout = (Some false, drop) →
  ∃ pre r post conf,
    events = pre ++ r :: post
    ∧ confirmations_after players threshold timeout pre = Proposed conf
    ∧ r_time r < timeout ∧ r_user r ∈ players ∧ r_accept r = false
    ∧ drop = {[r_user r]}.
Proof.
  unfold checkmark_validation.
  destruct (confirmations_after _ _ _ events) as [conf0| |d|d] eqn:Hst; try done.
  intros [= <-].
  destruct (terminal_split players threshold timeout events)
    as (pre & r & post & conf & -> & Hpre & Hstep); [by rewrite Hst|].
  rewrite Hst in Hstep.
  pose proof (proposed_invariant _ _ _ _ _ Hpre) as Hinv.
  apply confirm_closes in Hstep as [[_ ?]|[(Hlt & Hu & Ha & Heq)|(_ & _ & _ & _ & ?)]];
    try done; [|apply Hinv].
  injection Heq as ->.
  exists pre, r, post, conf. split_and!; try done. by apply Hinv.
Qed.

Lemma first_decline_wins players threshold timeout pre conf r post :
  confirmations_after players threshold timeout pre = Proposed conf →
  r_time r < timeout → r_user r ∈ players → r_accept r = false →
  checkmark_validation (pre ++ r :: post) players threshold timeout
  = (Some false, {[r_user r]}).
Proof.
  intros Hpre Hlt Hin Ha.
  pose proof (proposed_invariant _ _ _ _ _ Hpre) as Hinv.
  unfold checkmark_validation, confirmations_after in *.
  rewrite foldl_app, Hpre. cbn [foldl].
  assert (confirm threshold timeout (Proposed conf) r = Cancelled {[r_user r]}) as ->.
  { unfold confirm. rewrite decide_False by lia.
    destruct (inv_dom _ _ _ _ _ Hinv (r_user r)) as [_ Hd].
    destruct (Hd Hin) as [c ->]. rewrite Ha.
    rewrite in_state_declined_insert by apply Hinv.
    assert (({[r_user r]} : gset Z) ≠ ∅) as Hne.
    { intros He. assert (r_user r ∈ (∅ : gset Z)) as Hx.
      { rewrite <- He. by apply elem_of_singleton. }
      by apply not_elem_of_empty in Hx. }
    rewrite decide_False by (by intros [_ ?]).
    by rewrite decide_True. }
  by rewrite foldl_confirm_terminal.
Qed.

(** [checkmark_validation] answers [True] only on a timely accept of a
    reserved participant that brings the accepted count to the threshold,
    nobody having declined before. *)
Lemma checkmark_validation_validated events players threshold timeout drop :
  checkmark_validation events players threshold timeout = (Some true, drop) →
  ∃ pre r post conf,
    events = pre ++ r :: post
    ∧ proposed_inv players threshold timeout pre conf
    ∧ r_time r < timeout ∧ r_user r ∈ players ∧ r_accept r = true
    ∧ (threshold ≤ size (in_state accepted (<[r_user r := accepted]> conf)))%nat.
Proof.
  unfold checkmark_validation.
  destruct (confirmations_after _ _ _ events) as [conf0| |d|d] eqn:Hst; try done.
  intros _.
  destruct (terminal_split players threshold timeout events)
    as (pre & r & post & conf & -> & Hpre & Hstep); [by rewrite Hst|].
  rewrite Hst in Hstep.
  pose proof (proposed_invariant _ _ _ _ _ Hpre) as Hinv.
  apply confirm_closes in Hstep as [[_ ?]|[(_ & _ & _ & ?)|(Hlt & Hu & Ha & Hge & _)]];
    try done; [|apply Hinv].
  exists pre, r, post, conf. split_and!; try done. by apply Hinv.
Qed.

(** When the threshold is the number of reserved participants, reaching it
    means that every one of them accepted. *)
Lemma threshold_reached_unanimous players threshold timeout pre conf r :
  proposed_inv players threshold timeout pre conf →
  r_user r ∈ players → r_accept r = true →
  NoDup players → (length players ≤ threshold)%nat →
  (threshold ≤ size (in_state accepted (<[r_user r := accepted]> conf)))%nat →
  ∀ p, p ∈ players → accepted_in (pre ++ [r]) p.
Proof.
  intros Hinv Hin Ha Hnodup Hlen Hge p Hp.
  assert (∀ q, q ∈ in_state accepted (<[r_user r := accepted]> conf) →
               q ∈ players ∧ accepted_in (pre ++ [r]) q) as Hsub.
  { intros q Hq. apply elem_of_in_state in Hq.
    destruct (decide (r_user r = q)) as [<-|Hne].
    - split; [done|]. exists r. split_and!; try done.
      apply elem_of_app. right. by apply list_elem_of_singleton.
    - rewrite lookup_insert_ne in Hq by done.
      apply (inv_accepted _ _ _ _ _ Hinv) in Hq as [Hq (r0 & Hr0 & Hu & Hr0a)].
      split; [done|]. exists r0. split_and!; try done. apply elem_of_app. by left. }
  assert (in_state accepted (<[r_user r := accepted]> conf) = list_to_set players) as Heq.
  { apply set_subseteq_size_eq.
    - intros q Hq. apply elem_of_list_to_set. by apply Hsub.
    - rewrite size_list_to_set by done. lia. }
  apply Hsub. rewrite Heq. by apply elem_of_list_to_set.
Qed.

(** [checkmark_validation] answers [None] when the deadline elapses on an
    open proposal: the drop set is whoever is still pending then. *)
Lemma checkmark_validation_timed_out events players threshold timeout drop :
  checkmark_validation events players threshold timeout = (None, drop) →
  ∃ pre conf,
    confirmations_after players threshold timeout pre = Proposed conf
    ∧ (events = pre ∨ ∃ r post, events = pre ++ r :: post ∧ timeout ≤ r_time r)
    ∧ drop = in_state pending conf.
Proof.
  unfold checkmark_validation.
  destruct (confirmations_after _ _ _ events) as [conf0| |d|d] eqn:Hst; try done.
  - intros [= <-]. exists events, conf0. split_and!; eauto.
  - intros [= <-].
    destruct (terminal_split players threshold timeout events)
      as (pre & r & post & conf & -> & Hpre & Hstep); [by rewrite Hst|].
    rewrite Hst in Hstep.
    pose proof (proposed_invariant _ _ _ _ _ Hpre) as Hinv.
    apply confirm_closes in Hstep as [[Hle Heq]|[(_ & _ & _ & ?)|(_ & _ & _ & _ & ?)]];
      try done; [|apply Hinv].
    injection Heq as ->. exists pre, conf. split_and!; eauto.
Qed.

(** With as many distinct reserved participants as the threshold asks for,
    an open proposal always has somebody pending. *)
Lemma open_proposal_has_pending players threshold timeout evs conf :
  proposed_inv players threshold timeout evs conf →
  NoDup players → (0 < threshold ≤ length players)%nat →
  ∃ p, p ∈ in_state pending conf.
Proof.
  intros Hinv Hnodup [Hpos Hlen].
  destruct (set_choose_or_empty (in_state pending conf)) as [|Hempty]; [done|].
  exfalso. pose proof (inv_below _ _ _ _ _ Hinv Hpos) as Hlt.
  assert (list_to_set players ⊆ in_state accepted conf) as Hsub.
  { intros p Hp. apply elem_of_list_to_set in Hp. apply elem_of_in_state.
    destruct (inv_dom _ _ _ _ _ Hinv p) as [_ Hd]. destruct (Hd Hp) as [c Hc].
    destruct c; [|done|by apply (inv_no_declined _ _ _ _ _ Hinv) in Hc].
    apply elem_of_in_state in Hc. by apply Hempty in Hc. }
  apply subseteq_size in Hsub. rewrite size_list_to_set in Hsub by done. lia.
Qed.

(** ** The orchestrator, one invocation at a time *)

Section Invocation.

Variable find_best_game : list QueuePlayer → option Game.
Variable reactions : Z → list Reaction.
Variable session_add : list Game → Game → option Game.

Local Abbreviation run := (run_matchmaking_logic find_best_game reactions session_add).

Lemma send_queue_queue_players ctx w :
  queue_players (send_queue ctx w) = queue_players w.
Proof. unfold send_queue. simpl. by destruct (latest_queue_messages w !! _). Qed.

Lemma send_queue_games ctx w : games (send_queue ctx w) = games w.
Proof. unfold send_queue. simpl. by destruct (latest_queue_messages w !! _). Qed.

Lemma send_queue_next_message_id ctx w :
  next_message_id (send_queue ctx w) = next_message_id w + 1.
Proof. unfold send_queue. simpl. by destruct (latest_queue_messages w !! _). Qed.

Lemma send_queue_log ctx w :
  ∃ shown, log (send_queue ctx w) = log w ++ shown
           ∧ Forall (λ a, is_queue_mutation a = false) shown.
Proof.
  unfold send_queue. simpl. destruct (latest_queue_messages w !! _); simpl.
  - eexists [_; _]. rewrite <- app_assoc. split; [done|]. by repeat constructor.
  - eexists [_]. split; [done|]. by repeat constructor.
Qed.

Lemma proposed_world_queue_players ctx game w :
  queue_players (proposed_world ctx game w)
  = start_ready_check (player_ids_list game) (channel_id ctx) (next_message_id w)
                      (queue_players w).
Proof. unfold proposed_world. simpl. by rewrite send_queue_queue_players. Qed.

Lemma proposed_world_games ctx game w : games (proposed_world ctx game w) = games w.
Proof. unfold proposed_world. simpl. by rewrite send_queue_games. Qed.

Lemma proposed_world_next_message_id ctx game w :
  next_message_id (proposed_world ctx game w) = next_message_id w + 2.
Proof. unfold proposed_world. simpl. rewrite send_queue_next_message_id. simpl. lia. Qed.

Lemma proposed_world_log ctx game w :
  ∃ shown,
    log (proposed_world ctx game w)
    = log w
      ++ [Send (channel_id ctx) (next_message_id w)
               (MatchFound (player_ids_list game) (blue_expected_winrate game * 100)%float);
          StartReadyCheck (player_ids_list game) (channel_id ctx) (next_message_id w)]
      ++ shown
      ++ [CheckmarkValidation (next_message_id w) (player_ids_list game)
                              validation_threshold ready_check_timeout]
    ∧ Forall (λ a, is_queue_mutation a = false) shown.
Proof.
  unfold proposed_world. simpl.
  destruct (send_queue_log ctx
    (record (StartReadyCheck (player_ids_list game) (channel_id ctx) (next_message_id w))
       (set_queue_players
          (start_ready_check (player_ids_list game) (channel_id ctx) (next_message_id w))
          (ctx_send ctx (MatchFound (player_ids_list game)
                                    (blue_expected_winrate game * 100)%float) w).2)))
    as (shown & Hlog & Hshown).
  exists shown. split; [|done]. simpl in Hlog. rewrite Hlog.
  by rewrite <- !app_assoc.
Qed.

Lemma run_no_game fuel ctx w :
  find_best_game (GameQueue (channel_id ctx) (queue_players w)) = None →
  run (S fuel) ctx w = Returned w.
Proof. intros Hfind. simpl. by rewrite Hfind. Qed.

Lemma run_unbalanced fuel ctx w game :
  find_best_game (GameQueue (channel_id ctx) (queue_players w)) = Some game →
  (matchmaking_score game <? 0.2)%float = false →
  run (S fuel) ctx w
  = if (0.2 <=? matchmaking_score game)%float
    then Returned (ctx_send ctx (NotStarted ((0.5 + matchmaking_score game) * 100)%float) w).2
    else Returned w.
Proof. intros Hfind Hlt. simpl. by rewrite Hfind, Hlt. Qed.

Lemma run_validated fuel ctx w game drop :
  find_best_game (GameQueue (channel_id ctx) (queue_players w)) = Some game →
  (matchmaking_score game <? 0.2)%float = true →
  outcome_of_ready_check reactions ctx game w = (Some true, drop) →
  run (S fuel) ctx w
  = match session_add (games (proposed_world ctx game w)) game with
    | None => Raised PersistenceError (record (SessionAdd game) (proposed_world ctx game w))
    | Some stored => Returned (validated_world ctx game stored w)
    end.
Proof.
  unfold outcome_of_ready_check. intros Hfind Hlt Hout.
  cbn [run_matchmaking_logic]. rewrite Hfind, Hlt. cbn [ctx_send]. rewrite Hout.
  reflexivity.
Qed.

Lemma run_cancelled fuel ctx w game drop :
  find_best_game (GameQueue (channel_id ctx) (queue_players w)) = Some game →
  (matchmaking_score game <? 0.2)%float = true →
  outcome_of_ready_check reactions ctx game w = (Some false, drop) →
  run (S fuel) ctx w
  = match head (elements drop) with
    | None =>
      Raised StopIteration
        (record (CancelReadyCheck (next_message_id w) drop (Some (channel_id ctx)) None)
           (set_queue_players
              (cancel_ready_check (next_message_id w) drop (Some (channel_id ctx)) None)
              (proposed_world ctx game w)))
    | Some first => run fuel ctx (cancelled_world ctx game drop first w)
    end.
Proof.
  unfold outcome_of_ready_check. intros Hfind Hlt Hout.
  cbn [run_matchmaking_logic]. rewrite Hfind, Hlt. cbn [ctx_send]. rewrite Hout.
  by destruct (head (elements drop)).
Qed.

Lemma run_timed_out fuel ctx w game drop :
  find_best_game (GameQueue (channel_id ctx) (queue_players w)) = Some game →
  (matchmaking_score game <? 0.2)%float = true →
  outcome_of_ready_check reactions ctx game w = (None, drop) →
  run (S fuel) ctx w = run fuel ctx (timed_out_world ctx game drop w).
Proof.
  unfold outcome_of_ready_check. intros Hfind Hlt Hout.
  cbn [run_matchmaking_logic]. rewrite Hfind, Hlt. cbn [ctx_send]. by rewrite Hout.
Qed.

Lemma run_cases fuel ctx w :
  invocation find_best_game reactions session_add fuel ctx w.
Proof.
  destruct (find_best_game (GameQueue (channel_id ctx) (queue_players w)))
    as [game|] eqn:Hfind.
  - destruct (matchmaking_score game <? 0.2)%float eqn:Hlt.
    + destruct (outcome_of_ready_check reactions ctx game w) as [[[|]|] drop] eqn:Hout.
      * eapply inv_validated; eauto using run_validated.
      * eapply inv_cancelled; eauto using run_cancelled.
      * eapply inv_timed_out; eauto using run_timed_out.
    + eapply inv_unbalanced; eauto using run_unbalanced.
  - apply inv_no_game; auto using run_no_game.
Qed.

Lemma cancelled_world_log ctx game drop first w :
  log (cancelled_world ctx game drop first w)
  = log (proposed_world ctx game w)
    ++ [CancelReadyCheck (next_message_id w) drop (Some (channel_id ctx)) None;
        Send (channel_id ctx) (next_message_id w + 2) (PlayerCancelled first)].
Proof.
  unfold cancelled_world. cbn [ctx_send snd log record set_queue_players next_message_id].
  by rewrite proposed_world_next_message_id, <- app_assoc.
Qed.

Lemma timed_out_world_log ctx game drop w :
  log (timed_out_world ctx game drop w)
  = log (proposed_world ctx game w)
    ++ [CancelReadyCheck (next_message_id w) drop None (Some (guild_id ctx));
        Send (channel_id ctx) (next_message_id w + 2) CheckTimedOut].
Proof.
  unfold timed_out_world. cbn [ctx_send snd log record set_queue_players next_message_id].
  by rewrite proposed_world_next_message_id, <- app_assoc.
Qed.

Lemma validated_world_log ctx game stored w :
  log (validated_world ctx game stored w)
  = log (proposed_world ctx game w)
    ++ [SessionAdd game; ValidateReadyCheck (next_message_id w);
        Send (channel_id ctx) (next_message_id w + 2) (GameValidated (game_id stored))].
Proof.
  unfold validated_world.
  cbn [ctx_send snd log record set_queue_players set_games next_message_id].
  by rewrite proposed_world_next_message_id, <- !app_assoc.
Qed.

(** A run only adds to the log. *)
Lemma run_log_extends fuel ctx w :
  ∃ added, log (world_of (run fuel ctx w)) = log w ++ added.
Proof.
  revert w. induction fuel as [|fuel IH]; intros w.
  - exists []. simpl. by rewrite app_nil_r.
  - destruct (run_cases fuel ctx w) as [? ->|game ? ? ->|game drop ? ? ? ->
                                        |game drop ? ? ? ->|game drop ? ? ? ->].
    + exists []. simpl. by rewrite app_nil_r.
    + destruct (0.2 <=? _)%float; simpl; eexists; [done|by rewrite app_nil_r].
    + destruct (proposed_world_log ctx game w) as (shown & Hlog & _).
      destruct (session_add _ _) as [stored|].
      * cbn [world_of]. rewrite validated_world_log, Hlog, <- !app_assoc. by eexists.
      * cbn [world_of log record]. rewrite Hlog, <- !app_assoc. by eexists.
    + destruct (proposed_world_log ctx game w) as (shown & Hlog & _).
      destruct (head (elements drop)) as [first|].
      * destruct (IH (cancelled_world ctx game drop first w)) as [added ->].
        rewrite cancelled_world_log, Hlog, <- !app_assoc. by eexists.
      * cbn [world_of log record set_queue_players].
        rewrite Hlog, <- !app_assoc. by eexists.
    + destruct (proposed_world_log ctx game w) as (shown & Hlog & _).
      destruct (IH (timed_out_world ctx game drop w)) as [added ->].
      rewrite timed_out_world_log, Hlog, <- !app_assoc. by eexists.
Qed.

End Invocation.

(** ** Retrying terminates *)

Lemma ready_checks_started_app l1 l2 :
  ready_checks_started (l1 ++ l2) = (ready_checks_started l1 + ready_checks_started l2)%nat.
Proof. unfold ready_checks_started. by rewrite List.filter_app, length_app. Qed.

Lemma ready_checks_started_none l :
  Forall (λ a, is_queue_mutation a = false) l → ready_checks_started l = 0%nat.
Proof.
  unfold ready_checks_started. induction 1 as [|a l Ha _ IH]; [done|].
  simpl. destruct a; try done.
Qed.

Section Runs.

Variable find_best_game : list QueuePlayer → option Game.
Variable reactions : Z → list Reaction.
Variable session_add : list Game → Game → option Game.

Local Abbreviation run := (run_matchmaking_logic find_best_game reactions session_add).

Lemma proposed_world_ready_checks ctx game w :
  ready_checks_started (log (proposed_world ctx game w))
  = S (ready_checks_started (log w)).
Proof.
  destruct (proposed_world_log ctx game w) as (shown & -> & Hshown).
  rewrite !ready_checks_started_app, (ready_checks_started_none shown) by done.
  unfold ready_checks_started. simpl. lia.
Qed.

Lemma cancelled_world_queue_players ctx game drop first w :
  queue_players (cancelled_world ctx game drop first w)
  = cancel_ready_check (next_message_id w) drop (Some (channel_id ctx)) None
      (start_ready_check (player_ids_list game) (channel_id ctx) (next_message_id w)
                         (queue_players w)).
Proof.
  unfold cancelled_world. cbn [ctx_send snd queue_players record set_queue_players].
  by rewrite proposed_world_queue_players.
Qed.

Lemma timed_out_world_queue_players ctx game drop w :
  queue_players (timed_out_world ctx game drop w)
  = cancel_ready_check (next_message_id w) drop None (Some (guild_id ctx))
      (start_ready_check (player_ids_list game) (channel_id ctx) (next_message_id w)
                         (queue_players w)).
Proof.
  unfold timed_out_world. cbn [ctx_send snd queue_players record set_queue_players].
  by rewrite proposed_world_queue_players.
Qed.

(** A ready check that ends with a decline names one reserved participant. *)
Lemma cancelled_drop ctx game w drop :
  outcome_of_ready_check reactions ctx game w = (Some false, drop) →
  ∃ x, drop = {[x]} ∧ x ∈ player_ids_list game ∧ head (elements drop) = Some x.
Proof.
  intros Hout. apply checkmark_validation_cancelled in Hout
    as (pre & r & post & conf & _ & _ & _ & Hin & _ & ->).
  exists (r_user r). by rewrite elements_singleton.
Qed.

(** A ready check that times out drops at least one reserved participant. *)
Lemma timed_out_drop ctx game w drop :
  NoDup (player_ids_list game) → length (player_ids_list game) = 10%nat →
  outcome_of_ready_check reactions ctx game w = (None, drop) →
  ∃ x, x ∈ drop ∧ x ∈ player_ids_list game.
Proof.
  intros Hnodup Hlen Hout. apply checkmark_validation_timed_out in Hout
    as (pre & conf & Hpre & _ & ->).
  apply proposed_invariant in Hpre.
  destruct (open_proposal_has_pending _ _ _ _ _ Hpre Hnodup) as [x Hx].
  { unfold validation_threshold. lia. }
  exists x. split; [done|]. by eapply pending_iff in Hx as [? _].
Qed.

Lemma channel_rows_GameQueue c qps qp :
  qp ∈ GameQueue c qps → qp ∈ channel_rows c qps.
Proof.
  unfold GameQueue, channel_rows. rewrite !list_elem_of_filter. by intros [[? _] ?].
Qed.

Lemma run_terminates ctx :
  matchmaker_sound find_best_game →
  ∀ fuel w,
    (length (channel_rows (channel_id ctx) (queue_players w)) < fuel)%nat →
    ∃ w', (run fuel ctx w = Returned w' ∨ run fuel ctx w = Raised PersistenceError w')
          ∧ (ready_checks_started (log w')
             ≤ ready_checks_started (log w)
               + length (channel_rows (channel_id ctx) (queue_players w)))%nat.
Proof.
  intros Hsound. induction fuel as [|fuel IH]; intros w Hfuel; [lia|].
  destruct (run_cases find_best_game reactions session_add fuel ctx w)
    as [? ->|game ? ? ->|game drop Hfind ? Hout ->
        |game drop Hfind ? Hout ->|game drop Hfind ? Hout ->].
  - exists w. split; [by left|lia].
  - destruct (0.2 <=? _)%float; eexists; (split; [by left|]); [|lia].
    cbn [ctx_send snd log]. rewrite ready_checks_started_app.
    unfold ready_checks_started. simpl. lia.
  - destruct (Hsound _ _ Hfind) as (Hnodup & Hlen & Hin).
    assert (0 < length (channel_rows (channel_id ctx) (queue_players w)))%nat as Hrows.
    { destruct (player_ids_list game) as [|p ps] eqn:Hps; [done|].
      destruct (Hin p) as (qp & Hqp & _); [by left|].
      apply channel_rows_GameQueue in Hqp.
      destruct (channel_rows _ _); [by apply elem_of_nil in Hqp|simpl; lia]. }
    destruct (session_add _ _) as [stored|]; eexists; (split; [eauto|]).
    + rewrite validated_world_log, ready_checks_started_app,
        proposed_world_ready_checks.
      unfold ready_checks_started. simpl. lia.
    + cbn [log record]. rewrite ready_checks_started_app, proposed_world_ready_checks.
      unfold ready_checks_started. simpl. lia.
  - destruct (Hsound _ _ Hfind) as (Hnodup & Hlen & Hin).
    destruct (cancelled_drop _ _ _ _ Hout) as (x & -> & Hx & ->).
    destruct (Hin x Hx) as (qp & Hqp & Hqpx).
    pose proof (cancel_shrinks_channel (player_ids_list game) (next_message_id w)
                  {[x]} (Some (channel_id ctx)) None (channel_id ctx)
                  (queue_players w) qp Hqp) as Hshrink.
    rewrite <- cancelled_world_queue_players with (first := x) in Hshrink.
    assert (qp_player_id qp ∈ ({[x]} : gset Z)) as Hd by (by apply elem_of_singleton).
    specialize (Hshrink Hd ltac:(by right)).
    destruct (IH (cancelled_world ctx game {[x]} x w)) as (w' & Hrun & Hcount); [lia|].
    exists w'. split; [done|].
    rewrite cancelled_world_log, ready_checks_started_app,
      proposed_world_ready_checks in Hcount.
    remember (length (channel_rows (channel_id ctx)
                (queue_players (cancelled_world ctx game {[x]} x w)))) as rows'.
    unfold ready_checks_started in *. simpl in Hcount. lia.
  - destruct (Hsound _ _ Hfind) as (Hnodup & Hlen & Hin).
    destruct (timed_out_drop _ _ _ _ Hnodup Hlen Hout) as (x & Hxd & Hx).
    destruct (Hin x Hx) as (qp & Hqp & Hqpx). subst x.
    pose proof (cancel_shrinks_channel (player_ids_list game) (next_message_id w)
                  drop None (Some (guild_id ctx)) (channel_id ctx)
                  (queue_players w) qp Hqp Hxd ltac:(by left)) as Hshrink.
    rewrite <- timed_out_world_queue_players in Hshrink.
    destruct (IH (timed_out_world ctx game drop w)) as (w' & Hrun & Hcount);
      [lia|].
    exists w'. split; [done|].
    rewrite timed_out_world_log, ready_checks_started_app,
      proposed_world_ready_checks in Hcount.
    remember (length (channel_rows (channel_id ctx)
                (queue_players (timed_out_world ctx game drop w)))) as rows'.
    unfold ready_checks_started in *. simpl in Hcount. lia.
Qed.

(** Reading the first element of the drop set never fails. *)
Lemma run_never_stop_iteration fuel ctx w w' :
  run fuel ctx w ≠ Raised StopIteration w'.
Proof.
  revert w. induction fuel as [|fuel IH]; intros w; [done|].
  destruct (run_cases find_best_game reactions session_add fuel ctx w)
    as [? ->|game ? ? ->|game drop Hfind ? Hout ->
        |game drop Hfind ? Hout ->|game drop Hfind ? Hout ->]; try done.
  - by destruct (0.2 <=? _)%float.
  - by destruct (session_add _ _).
  - destruct (cancelled_drop _ _ _ _ Hout) as (x & -> & Hx & ->). apply IH.
Qed.

(** Once a ready check has been proposed, the rest of the run only adds to
    the log. *)
Lemma run_extends_proposed fuel ctx w game :
  find_best_game (GameQueue (channel_id ctx) (queue_players w)) = Some game →
  (matchmaking_score game <? 0.2)%float = true →
  ∃ added,
    log (world_of (run (S fuel) ctx w)) = log (proposed_world ctx game w) ++ added.
Proof.
  intros Hfind Hlt.
  destruct (run_cases find_best_game reactions session_add fuel ctx w)
    as [?|game' ? ?|game' drop Hfind' ? Hout Hrun
        |game' drop Hfind' ? Hout Hrun|game' drop Hfind' ? Hout Hrun];
    try congruence; assert (game' = game) as -> by congruence; rewrite Hrun.
  - destruct (session_add _ _) as [stored|]; cbn [world_of].
    + rewrite validated_world_log. by eexists.
    + by eexists.
  - destruct (head (elements drop)) as [first|].
    + destruct (run_log_extends find_best_game reactions session_add fuel ctx
                  (cancelled_world ctx game drop first w)) as [added ->].
      rewrite cancelled_world_log, <- app_assoc. by eexists.
    + by eexists.
  - destruct (run_log_extends find_best_game reactions session_add fuel ctx
                (timed_out_world ctx game drop w)) as [added ->].
    rewrite timed_out_world_log, <- app_assoc. by eexists.
Qed.

End Runs.

(** ** Validation *)

(** With a fresh id, reserving and then validating removes every waiting
    row of the reserved participants, in every channel. *)
Lemma validate_start_fresh player_ids c id qps :
  fresh_id id qps →
  validate_ready_check id (start_ready_check player_ids c id qps)
  = filter (λ qp, ¬ (waiting qp ∧ qp_player_id qp ∈ player_ids)) qps.
Proof.
  unfold validate_ready_check, start_ready_check, fresh_id.
  induction qps as [|qp qps IH]; intros Hfresh; [done|].
  apply Forall_cons in Hfresh as [Hqp Hfresh].
  rewrite map_cons, !filter_cons, IH by done.
  destruct (decide (waiting qp ∧ qp_player_id qp ∈ player_ids)) as [Hres|Hres].
  - rewrite decide_False by (simpl; by intros ?).
    by rewrite decide_False by (by intros ?).
  - rewrite decide_True by done.
    by rewrite decide_True.
Qed.

Section Validation.

Variable find_best_game : list QueuePlayer → option Game.
Variable reactions : Z → list Reaction.
Variable session_add : list Game → Game → option Game.

Local Abbreviation run := (run_matchmaking_logic find_best_game reactions session_add).

Lemma cancelled_world_next_message_id ctx game drop first w :
  next_message_id (cancelled_world ctx game drop first w) = next_message_id w + 3.
Proof.
  unfold cancelled_world. cbn [ctx_send snd next_message_id record set_queue_players].
  rewrite proposed_world_next_message_id. lia.
Qed.

Lemma timed_out_world_next_message_id ctx game drop w :
  next_message_id (timed_out_world ctx game drop w) = next_message_id w + 3.
Proof.
  unfold timed_out_world. cbn [ctx_send snd next_message_id record set_queue_players].
  rewrite proposed_world_next_message_id. lia.
Qed.

Lemma not_validate_of_not_mutation l m :
  Forall (λ a, is_queue_mutation a = false) l → ValidateReadyCheck m ∉ l.
Proof.
  intros Hl Hin. rewrite Forall_forall in Hl. by apply Hl in Hin.
Qed.

Lemma not_validate_in_proposal ctx game w shown m :
  Forall (λ a, is_queue_mutation a = false) shown →
  ValidateReadyCheck m ∉
    [Send (channel_id ctx) (next_message_id w)
          (MatchFound (player_ids_list game) (blue_expected_winrate game * 100)%float);
     StartReadyCheck (player_ids_list game) (channel_id ctx) (next_message_id w)]
    ++ shown
    ++ [CheckmarkValidation (next_message_id w) (player_ids_list game)
                            validation_threshold ready_check_timeout].
Proof.
  intros Hshown. rewrite !elem_of_app. intros [Hin|[Hin|Hin]].
  - apply elem_of_cons in Hin as [?|Hin]; [done|].
    by apply list_elem_of_singleton in Hin.
  - by apply not_validate_of_not_mutation in Hin.
  - by apply list_elem_of_singleton in Hin.
Qed.

(** A run validates only ready checks that it started itself. *)
Lemma run_validates_own fuel ctx w added m :
  log (world_of (run fuel ctx w)) = log w ++ added →
  ValidateReadyCheck m ∈ added →
  next_message_id w ≤ m.
Proof.
  revert w added. induction fuel as [|fuel IH]; intros w added.
  - simpl. intros Hlog. rewrite <- (app_nil_r (log w)) in Hlog at 1.
    apply app_inv_head in Hlog as <-. by intros ?%elem_of_nil.
  - destruct (run_cases find_best_game reactions session_add fuel ctx w)
      as [? ->|game ? ? ->|game drop Hfind ? Hout ->
          |game drop Hfind ? Hout ->|game drop Hfind ? Hout ->].
    + simpl. intros Hlog. rewrite <- (app_nil_r (log w)) in Hlog at 1.
      apply app_inv_head in Hlog as <-. by intros ?%elem_of_nil.
    + destruct (0.2 <=? _)%float; cbn [world_of ctx_send snd log]; intros Hlog.
      * apply app_inv_head in Hlog as <-. intros Hin.
        apply list_elem_of_singleton in Hin. done.
      * rewrite <- (app_nil_r (log w)) in Hlog at 1.
        apply app_inv_head in Hlog as <-. by intros ?%elem_of_nil.
    + destruct (proposed_world_log ctx game w) as (shown & Hlog & Hshown).
      destruct (session_add _ _) as [stored|]; cbn [world_of].
      * rewrite validated_world_log, Hlog, <- app_assoc.
        intros Heq. apply app_inv_head in Heq as <-.
        rewrite elem_of_app. intros [Hin|Hin].
        -- by apply not_validate_in_proposal in Hin.
        -- apply elem_of_cons in Hin as [?|Hin]; [done|].
           apply elem_of_cons in Hin as [[= ->]|Hin]; [lia|].
           by apply list_elem_of_singleton in Hin.
      * cbn [log record]. rewrite Hlog, <- app_assoc.
        intros Heq. apply app_inv_head in Heq as <-.
        rewrite elem_of_app. intros [Hin|Hin].
        -- by apply not_validate_in_proposal in Hin.
        -- by apply list_elem_of_singleton in Hin.
    + destruct (proposed_world_log ctx game w) as (shown & Hlog & Hshown).
      destruct (head (elements drop)) as [first|].
      * destruct (run_log_extends find_best_game reactions session_add fuel ctx
                    (cancelled_world ctx game drop first w)) as [added1 Hadded1].
        specialize (IH _ _ Hadded1). rewrite Hadded1.
        rewrite cancelled_world_log, Hlog, <- !app_assoc.
        intros Heq. apply app_inv_head in Heq as <-.
        rewrite !app_assoc, elem_of_app, <- !app_assoc.
        intros [Hin|Hin].
        -- rewrite !app_assoc, elem_of_app, <- !app_assoc in Hin.
           destruct Hin as [Hin|Hin].
           ++ by apply not_validate_in_proposal in Hin.
           ++ apply elem_of_cons in Hin as [?|Hin]; [done|].
              by apply list_elem_of_singleton in Hin.
        -- apply IH in Hin. rewrite cancelled_world_next_message_id in Hin. lia.
      * cbn [world_of log record set_queue_players]. rewrite Hlog, <- app_assoc.
        intros Heq. apply app_inv_head in Heq as <-.
        rewrite elem_of_app. intros [Hin|Hin].
        -- by apply not_validate_in_proposal in Hin.
        -- by apply list_elem_of_singleton in Hin.
    + destruct (proposed_world_log ctx game w) as (shown & Hlog & Hshown).
      destruct (run_log_extends find_best_game reactions session_add fuel ctx
                  (timed_out_world ctx game drop w)) as [added1 Hadded1].
      specialize (IH _ _ Hadded1). rewrite Hadded1.
      rewrite timed_out_world_log, Hlog, <- !app_assoc.
      intros Heq. apply app_inv_head in Heq as <-.
      rewrite !app_assoc, elem_of_app, <- !app_assoc.
      intros [Hin|Hin].
      -- rewrite !app_assoc, elem_of_app, <- !app_assoc in Hin.
         destruct Hin as [Hin|Hin].
         ++ by apply not_validate_in_proposal in Hin.
         ++ apply elem_of_cons in Hin as [?|Hin]; [done|].
            by apply list_elem_of_singleton in Hin.
      -- apply IH in Hin. rewrite timed_out_world_next_message_id in Hin. lia.
Qed.

End Validation.

Lemma first_two_per_role_queue queue qp :
  qp ∈ first_two_per_role queue → qp ∈ queue.
Proof.
  unfold first_two_per_role, queue_players_dict. intros Hin.
  apply list_elem_of_In, in_flat_map in Hin as (row & Hrow & Hqp).
  apply in_map_iff in Hrow as (r & <- & _). simpl in Hqp.
  apply list_elem_of_In in Hqp. apply elem_of_take in Hqp as (i & Hi & _).
  apply list_elem_of_lookup_2 in Hi. by apply list_elem_of_filter in Hi as [_ ?].
Qed.

Lemma scenario_find_sound score : matchmaker_sound (scenario_find score).
Proof.
  intros queue game. unfold scenario_find.
  destruct (decide _) as [[Hnodup Hlen]|]; [|done]. intros [= <-]. simpl.
  split_and!; try done. intros p Hp.
  apply list_elem_of_In, in_map_iff in Hp as (qp & <- & Hqp).
  exists qp. split; [|done]. by apply first_two_per_role_queue, list_elem_of_In.
Qed.

(** ** The claims *)

Section Claims.

Variable find_best_game : list QueuePlayer → option Game.
Variable reactions : Z → list Reaction.
Variable session_add : list Game → Game → option Game.
Variable get_last_game : Z → Z → list Game → option Game.
Variable score_game_from_winning_player : Z → Z → list Game → option (list Game).

Local Abbreviation run := (run_matchmaking_logic find_best_game reactions session_add).

Lemma cancelled_world_games ctx game drop first w :
  games (cancelled_world ctx game drop first w) = games w.
Proof.
  unfold cancelled_world. cbn [ctx_send snd games record set_queue_players].
  apply proposed_world_games.
Qed.

Lemma timed_out_world_games ctx game drop w :
  games (timed_out_world ctx game drop w) = games w.
Proof.
  unfold timed_out_world. cbn [ctx_send snd games record set_queue_players].
  apply proposed_world_games.
Qed.

Lemma validated_world_games ctx game stored w :
  games (validated_world ctx game stored w) = games w ++ [stored].
Proof.
  unfold validated_world. cbn [ctx_send snd games record set_queue_players set_games].
  by rewrite proposed_world_games.
Qed.

Lemma validated_world_queue_players ctx game stored w :
  queue_players (validated_world ctx game stored w)
  = validate_ready_check (next_message_id w)
      (start_ready_check (player_ids_list game) (channel_id ctx) (next_message_id w)
                         (queue_players w)).
Proof.
  unfold validated_world.
  cbn [ctx_send snd queue_players record set_queue_players set_games].
  by rewrite proposed_world_queue_players.
Qed.

(** After a decline or a timeout the orchestrator has cancelled the ready
    check with the drop set the dialog returned, in the scope of that outcome,
    and calls itself on the world so obtained, which has fewer rows in the
    channel. *)
Lemma retry_step ctx w game ready drop :
  matchmaker_sound find_best_game →
  find_best_game (GameQueue (channel_id ctx) (queue_players w)) = Some game →
  (matchmaking_score game <? 0.2)%float = true →
  outcome_of_ready_check reactions ctx game w = (ready, drop) →
  ready ≠ Some true →
  ∃ w1,
    run 1%nat ctx w = OutOfFuel w1
    ∧ (∀ fuel, run (S fuel) ctx w = run fuel ctx w1)
    ∧ queue_players w1
      = cancel_ready_check (next_message_id w) drop
          (match ready with Some _ => Some (channel_id ctx) | None => None end)
          (match ready with Some _ => None | None => Some (guild_id ctx) end)
          (start_ready_check (player_ids_list game) (channel_id ctx) (next_message_id w)
                             (queue_players w))
    ∧ (length (channel_rows (channel_id ctx) (queue_players w1))
       < length (channel_rows (channel_id ctx) (queue_players w)))%nat.
Proof.
  intros Hsound Hfind Hlt Hout Hready.
  destruct (Hsound _ _ Hfind) as (Hnodup & Hlen & Hin).
  destruct ready as [[|]|]; [done| |].
  - destruct (cancelled_drop _ _ _ _ _ Hout) as (x & -> & Hx & Hhead).
    destruct (Hin x Hx) as (qp & Hqp & Hqpx).
    assert (∀ fuel, run (S fuel) ctx w = run fuel ctx (cancelled_world ctx game {[x]} x w))
      as Hstep.
    { intros fuel. rewrite (run_cancelled _ _ _ fuel _ _ _ _ Hfind Hlt Hout).
      by rewrite Hhead. }
    exists (cancelled_world ctx game {[x]} x w). split_and!.
    + rewrite Hstep. reflexivity.
    + exact Hstep.
    + apply cancelled_world_queue_players.
    + rewrite cancelled_world_queue_players.
      apply (cancel_shrinks_channel _ _ _ _ _ _ _ qp); [done| |by right].
      rewrite Hqpx. by apply elem_of_singleton.
  - destruct (timed_out_drop _ _ _ _ _ Hnodup Hlen Hout) as (x & Hxd & Hx).
    destruct (Hin x Hx) as (qp & Hqp & Hqpx).
    assert (∀ fuel, run (S fuel) ctx w = run fuel ctx (timed_out_world ctx game drop w))
      as Hstep.
    { intros fuel. by rewrite (run_timed_out _ _ _ fuel _ _ _ _ Hfind Hlt Hout). }
    exists (timed_out_world ctx game drop w). split_and!.
    + rewrite Hstep. reflexivity.
    + exact Hstep.
    + apply timed_out_world_queue_players.
    + rewrite timed_out_world_queue_players.
      apply (cancel_shrinks_channel _ _ _ _ _ _ _ qp); [done| |by left].
      by rewrite Hqpx.
Qed.

(** A run that returns stopped for one of the three reasons the code has:
    the search found no candidate in the channel's queue, or its best
    candidate was not below the threshold, or the game of the last ready
    check was validated and announced. *)
Lemma run_returned_end fuel ctx w w' :
  run fuel ctx w = Returned w' →
  find_best_game (GameQueue (channel_id ctx) (queue_players w')) = None
  ∨ (∃ game,
       find_best_game (GameQueue (channel_id ctx) (queue_players w')) = Some game
       ∧ (matchmaking_score game <? 0.2)%float = false)
  ∨ (∃ before message stored,
       log w' = before ++ [ValidateReadyCheck message;
                           Send (channel_id ctx) (message + 2)
                                (GameValidated (game_id stored))]).
Proof.
  revert w. induction fuel as [|fuel IH]; intros w; [done|].
  destruct (run_cases find_best_game reactions session_add fuel ctx w)
    as [Hfind ->|game Hfind Hlt ->|game drop Hfind Hlt Hout ->
        |game drop Hfind Hlt Hout ->|game drop Hfind Hlt Hout ->].
  - intros [= <-]. by left.
  - intros Hrun. right; left. exists game.
    destruct (0.2 <=? _)%float; injection Hrun as <-;
      cbn [ctx_send snd queue_players]; done.
  - destruct (session_add _ _) as [stored|]; [|done]. intros [= <-]. right; right.
    exists (log (proposed_world ctx game w) ++ [SessionAdd game]),
      (next_message_id w), stored.
    by rewrite validated_world_log, <- app_assoc.
  - destruct (head (elements drop)) as [first|]; [apply IH|done].
  - apply IH.
Qed.

(** C1: for the candidate the search returns, the orchestrator starts a
    ready check if and only if the candidate's score is strictly below 0.2;
    when the score is 0.2 or greater it starts none, reports the best
    candidate's predicted winrate as not started and returns. *)
Theorem ready_check_started_iff_score_below_threshold fuel ctx w game :
  find_best_game (GameQueue (channel_id ctx) (queue_players w)) = Some game →
  ∃ added,
    log (world_of (run (S fuel) ctx w)) = log w ++ added
    ∧ ((matchmaking_score game <? 0.2)%float = true
       ↔ StartReadyCheck (player_ids_list game) (channel_id ctx) (next_message_id w)
         ∈ added)
    ∧ ((0.2 <=? matchmaking_score game)%float = true →
       run (S fuel) ctx w
       = Returned (ctx_send ctx (NotStarted ((0.5 + matchmaking_score game) * 100)%float)
                            w).2
       ∧ added = [Send (channel_id ctx) (next_message_id w)
                       (NotStarted ((0.5 + matchmaking_score game) * 100)%float)]).
Proof.
  intros Hfind. destruct (matchmaking_score game <? 0.2)%float eqn:Hlt.
  - destruct (run_extends_proposed find_best_game reactions session_add
                fuel ctx w game Hfind Hlt) as [added Hadded].
    destruct (proposed_world_log ctx game w) as (shown & Hlog & _).
    rewrite Hlog, <- app_assoc in Hadded.
    eexists. split; [exact Hadded|]. split.
    + split; [intros _|done]. apply elem_of_app. left.
      apply list_elem_of_further, list_elem_of_here.
    + intros Hge. apply score_at_least_not_below in Hge. congruence.
  - rewrite (run_unbalanced _ _ _ fuel ctx w game Hfind Hlt).
    destruct (0.2 <=? matchmaking_score game)%float.
    + eexists [_]. split; [done|]. split; [|done].
      split; [done|]. intros Hin. by apply list_elem_of_singleton in Hin.
    + exists []. split; [by rewrite app_nil_r|]. split; [|done].
      split; [done|]. by intros ?%elem_of_nil.
Qed.

(** C10: when the search returns no candidate, or a candidate whose score
    is 0.2 or greater, the orchestrator returns with the queue table as it
    was, so that every channel's waiting pool is unchanged, and without any
    call that reserves, drops or re-queues a participant. *)
Theorem no_proposal_leaves_pools_unchanged fuel ctx w :
  find_best_game (GameQueue (channel_id ctx) (queue_players w)) = None
  ∨ (∃ game,
       find_best_game (GameQueue (channel_id ctx) (queue_players w)) = Some game
       ∧ (0.2 <=? matchmaking_score game)%float = true) →
  ∃ w' added,
    run (S fuel) ctx w = Returned w'
    ∧ queue_players w' = queue_players w
    ∧ (∀ channel,
         GameQueue channel (queue_players w') = GameQueue channel (queue_players w))
    ∧ log w' = log w ++ added
    ∧ Forall (λ a, is_queue_mutation a = false) added.
Proof.
  intros [Hnone|(game & Hfind & Hge)].
  - exists w, []. rewrite (run_no_game _ _ _ fuel ctx w Hnone).
    split_and!; try done. by rewrite app_nil_r.
  - pose proof (score_at_least_not_below _ Hge) as Hlt.
    rewrite (run_unbalanced _ _ _ fuel ctx w game Hfind Hlt), Hge.
    eexists _, [_]. split_and!; try done. by repeat constructor.
Qed.

(** C9: a ready check that resolves with a decline returns a drop set that
    is not empty, so its first element exists, and the orchestrator never
    fails reading it. *)
Theorem decline_drop_set_is_not_empty events players threshold timeout drop fuel ctx w :
  checkmark_validation events players threshold timeout = (Some false, drop) →
  drop ≠ ∅
  ∧ (∃ first, head (elements drop) = Some first ∧ first ∈ drop)
  ∧ (∀ w', run fuel ctx w ≠ Raised StopIteration w').
Proof.
  intros Hcv. apply checkmark_validation_cancelled in Hcv
    as (pre & r & post & conf & _ & _ & _ & _ & _ & ->).
  split_and!.
  - intros He. assert (r_user r ∈ (∅ : gset Z)) as Hin.
    { rewrite <- He. by apply elem_of_singleton. }
    by apply not_elem_of_empty in Hin.
  - exists (r_user r). rewrite elements_singleton. split; [done|].
    by apply elem_of_singleton.
  - intros w'. apply run_never_stop_iteration.
Qed.

(** C8: after a Cancelled or TimedOut ready check the orchestrator cancels
    the ready check with the drop set of the dialog and calls itself for the
    same channel on the queue table so obtained, which has fewer rows in that
    channel: the search is run again on that channel's queue, and the run
    returns there when it finds nothing; a run ends at once, with the queue
    table as it was, when the search returns no candidate or a candidate
    whose score is 0.2 or greater; and with a matchmaker that proposes ten
    distinct participants of the queue, a run completes (it returns, or the
    store's error ends it) after at most as many ready checks as the channel
    has rows, and it returns only when the search finds no candidate in the
    channel's queue, or a best candidate not below 0.2, or when the last
    ready check was validated. *)
Theorem retry_terminates fuel ctx w :
  matchmaker_sound find_best_game →
  (length (channel_rows (channel_id ctx) (queue_players w)) < fuel)%nat →
  (∃ w', (run fuel ctx w = Returned w' ∨ run fuel ctx w = Raised PersistenceError w')
         ∧ (ready_checks_started (log w')
            ≤ ready_checks_started (log w)
              + length (channel_rows (channel_id ctx) (queue_players w)))%nat
         ∧ (run fuel ctx w = Returned w' →
            find_best_game (GameQueue (channel_id ctx) (queue_players w')) = None
            ∨ (∃ game,
                 find_best_game (GameQueue (channel_id ctx) (queue_players w'))
                 = Some game
                 ∧ (matchmaking_score game <? 0.2)%float = false)
            ∨ (∃ before message stored,
                 log w' = before ++ [ValidateReadyCheck message;
                                     Send (channel_id ctx) (message + 2)
                                          (GameValidated (game_id stored))])))
  ∧ (∀ game ready drop,
       find_best_game (GameQueue (channel_id ctx) (queue_players w)) = Some game →
       (matchmaking_score game <? 0.2)%float = true →
       checkmark_validation (reactions (next_message_id w)) (player_ids_list game)
                            validation_threshold ready_check_timeout = (ready, drop) →
       ready ≠ Some true →
       ∃ w1,
         run 1%nat ctx w = OutOfFuel w1
         ∧ (∀ n, run (S n) ctx w = run n ctx w1)
         ∧ queue_players w1
           = cancel_ready_check (next_message_id w) drop
               (match ready with Some _ => Some (channel_id ctx) | None => None end)
               (match ready with Some _ => None | None => Some (guild_id ctx) end)
               (start_ready_check (player_ids_list game) (channel_id ctx)
                                  (next_message_id w) (queue_players w))
         ∧ (length (channel_rows (channel_id ctx) (queue_players w1))
            < length (channel_rows (channel_id ctx) (queue_players w)))%nat
         ∧ (find_best_game (GameQueue (channel_id ctx) (queue_players w1)) = None →
            ∀ n, run (S (S n)) ctx w = Returned w1))
  ∧ (find_best_game (GameQueue (channel_id ctx) (queue_players w)) = None
     ∨ (∃ game,
          find_best_game (GameQueue (channel_id ctx) (queue_players w)) = Some game
          ∧ (0.2 <=? matchmaking_score game)%float = true) →
     ∀ n, ∃ w', run (S n) ctx w = Returned w'
                ∧ queue_players w' = queue_players w
                ∧ ready_checks_started (log w') = ready_checks_started (log w)).
Proof.
  intros Hsound Hfuel. split_and!.
  - destruct (run_terminates find_best_game reactions session_add ctx Hsound fuel w Hfuel)
      as (w' & Hrun & Hcount).
    exists w'. split_and!; [exact Hrun|exact Hcount|]. apply run_returned_end.
  - intros game ready drop Hfind Hlt Hout Hready.
    destruct (retry_step ctx w game ready drop Hsound Hfind Hlt Hout Hready)
      as (w1 & Hone & Hstep & Hqueue & Hrows).
    exists w1. split_and!; try assumption.
    intros Hnone n. rewrite Hstep. by apply run_no_game.
  - intros [Hnone|(game & Hfind & Hge)] n.
    + exists w. by rewrite (run_no_game _ _ _ n ctx w Hnone).
    + pose proof (score_at_least_not_below _ Hge) as Hlt.
      rewrite (run_unbalanced _ _ _ n ctx w game Hfind Hlt), Hge.
      eexists. split; [done|]. split; [done|]. cbn [ctx_send snd log].
      rewrite ready_checks_started_app. unfold ready_checks_started. simpl. lia.
Qed.

(** C2: when a ready check ends with a decline, the drop set is exactly
    the first reserved participant who declined before the deadline, a
    decline arriving later does not enlarge it; the orchestrator cancels the
    ready check with that drop set and the proposing channel as scope, which
    removes that participant's waiting rows from the proposing channel only
    and puts every other reserved row back, announces who cancelled, and
    calls itself again on the world so obtained: that world is where an
    invocation given no fuel for the call stops, and every run from [w] has
    its log as a prefix of its own. *)
Theorem decline_drops_first_decliner_from_channel ctx w game drop :
  find_best_game (GameQueue (channel_id ctx) (queue_players w)) = Some game →
  (matchmaking_score game <? 0.2)%float = true →
  fresh_id (next_message_id w) (queue_players w) →
  checkmark_validation (reactions (next_message_id w)) (player_ids_list game)
                       validation_threshold ready_check_timeout = (Some false, drop) →
  ∃ seen decline later w',
    reactions (next_message_id w) = seen ++ decline :: later
    ∧ r_accept decline = false
    ∧ r_user decline ∈ player_ids_list game
    ∧ (∀ r, r ∈ seen → r_user r ∈ player_ids_list game → r_accept r = true)
    ∧ drop = {[r_user decline]}
    ∧ (∀ later',
         checkmark_validation (seen ++ decline :: later') (player_ids_list game)
                              validation_threshold ready_check_timeout
         = (Some false, {[r_user decline]}))
    ∧ run 1%nat ctx w = OutOfFuel w'
    ∧ (∀ fuel, run (S fuel) ctx w = run fuel ctx w')
    ∧ (∀ fuel, ∃ later, log (world_of (run (S fuel) ctx w)) = log w' ++ later)
    ∧ queue_players w'
      = filter (λ qp, ¬ (waiting qp ∧ qp_player_id qp = r_user decline
                         ∧ qp_channel_id qp = channel_id ctx))
               (queue_players w)
    ∧ games w' = games w
    ∧ ∃ before,
        log w' = log w ++ before
                 ++ [CancelReadyCheck (next_message_id w) drop
                                      (Some (channel_id ctx)) None;
                     Send (channel_id ctx) (next_message_id w + 2)
                          (PlayerCancelled (r_user decline))].
Proof.
  intros Hfind Hlt Hfresh Hcv.
  destruct (checkmark_validation_cancelled _ _ _ _ _ Hcv)
    as (seen & r & later & conf & Hev & Hseen & Htime & Hin & Ha & ->).
  pose proof (proposed_invariant _ _ _ _ _ Hseen) as Hinv.
  exists seen, r, later, (cancelled_world ctx game {[r_user r]} (r_user r) w).
  split_and!.
  - exact Hev.
  - exact Ha.
  - exact Hin.
  - apply Hinv.
  - reflexivity.
  - intros later'. by eapply first_decline_wins.
  - rewrite (run_cancelled _ _ _ 0%nat _ _ _ _ Hfind Hlt Hcv), elements_singleton.
    reflexivity.
  - intros fuel. rewrite (run_cancelled _ _ _ fuel _ _ _ _ Hfind Hlt Hcv).
    by rewrite elements_singleton.
  - intros fuel. rewrite (run_cancelled _ _ _ fuel _ _ _ _ Hfind Hlt Hcv).
    rewrite elements_singleton. apply run_log_extends.
  - rewrite cancelled_world_queue_players, cancel_start_channel by done.
    unfold dequeue. apply list_filter_iff. intros qp.
    by rewrite elem_of_singleton.
  - apply cancelled_world_games.
  - destruct (proposed_world_log ctx game w) as (shown & Hlog & _).
    rewrite cancelled_world_log, Hlog, <- app_assoc. eexists. reflexivity.
Qed.

(** C3: when a ready check times out, the drop set is every reserved
    participant who had not accepted when the deadline elapsed; the
    orchestrator cancels the ready check with that drop set and the server as
    scope, which removes their waiting rows from every channel and keeps
    every row of a participant who accepted, announces the timeout, and calls
    itself again on the world so obtained: that world is where an invocation
    given no fuel for the call stops, and every run from [w] has its log as a
    prefix of its own. *)
Theorem timeout_drops_pending_everywhere ctx w game drop :
  find_best_game (GameQueue (channel_id ctx) (queue_players w)) = Some game →
  (matchmaking_score game <? 0.2)%float = true →
  fresh_id (next_message_id w) (queue_players w) →
  checkmark_validation (reactions (next_message_id w)) (player_ids_list game)
                       validation_threshold ready_check_timeout = (None, drop) →
  ∃ seen w',
    (reactions (next_message_id w) = seen
     ∨ ∃ late later, reactions (next_message_id w) = seen ++ late :: later
                     ∧ ready_check_timeout ≤ r_time late)
    ∧ (∀ r, r ∈ seen → r_time r < ready_check_timeout)
    ∧ (∀ p, p ∈ drop ↔ p ∈ player_ids_list game ∧ ¬ accepted_in seen p)
    ∧ run 1%nat ctx w = OutOfFuel w'
    ∧ (∀ fuel, run (S fuel) ctx w = run fuel ctx w')
    ∧ (∀ fuel, ∃ later, log (world_of (run (S fuel) ctx w)) = log w' ++ later)
    ∧ queue_players w'
      = filter (λ qp, ¬ (waiting qp ∧ qp_player_id qp ∈ drop)) (queue_players w)
    ∧ (∀ qp, accepted_in seen (qp_player_id qp) →
             qp ∈ queue_players w → qp ∈ queue_players w')
    ∧ games w' = games w
    ∧ ∃ before,
        log w' = log w ++ before
                 ++ [CancelReadyCheck (next_message_id w) drop None
                                      (Some (guild_id ctx));
                     Send (channel_id ctx) (next_message_id w + 2) CheckTimedOut].
Proof.
  intros Hfind Hlt Hfresh Hcv.
  destruct (checkmark_validation_timed_out _ _ _ _ _ Hcv)
    as (seen & conf & Hseen & Hshape & ->).
  pose proof (proposed_invariant _ _ _ _ _ Hseen) as Hinv.
  assert (queue_players (timed_out_world ctx game (in_state pending conf) w)
          = filter (λ qp, ¬ (waiting qp ∧ qp_player_id qp ∈ in_state pending conf))
                   (queue_players w)) as Hqueue.
  { by rewrite timed_out_world_queue_players, cancel_start_everywhere. }
  exists seen, (timed_out_world ctx game (in_state pending conf) w).
  split_and!.
  - exact Hshape.
  - apply Hinv.
  - intros p. by eapply pending_iff.
  - rewrite (run_timed_out _ _ _ 0%nat _ _ _ _ Hfind Hlt Hcv). reflexivity.
  - intros fuel. by rewrite (run_timed_out _ _ _ fuel _ _ _ _ Hfind Hlt Hcv).
  - intros fuel. rewrite (run_timed_out _ _ _ fuel _ _ _ _ Hfind Hlt Hcv).
    apply run_log_extends.
  - exact Hqueue.
  - intros qp Hacc Hqp. rewrite Hqueue. apply list_elem_of_filter.
    split; [|done]. intros (_ & Hd).
    eapply pending_iff in Hd as [_ Hd]; [|done]. by apply Hd.
  - apply timed_out_world_games.
  - destruct (proposed_world_log ctx game w) as (shown & Hlog & _).
    rewrite timed_out_world_log, Hlog, <- app_assoc. eexists. reflexivity.
Qed.

(** C4: the ready check of a proposal is run with threshold 10 and a
    deadline of 180 = 3 * 60 counted from the proposal, and the proposal of
    ten participants is validated only when every one of them accepted
    before the deadline and none of them declined. *)
Theorem validated_only_when_unanimous fuel ctx w game :
  find_best_game (GameQueue (channel_id ctx) (queue_players w)) = Some game →
  (matchmaking_score game <? 0.2)%float = true →
  NoDup (player_ids_list game) → length (player_ids_list game) = 10%nat →
  ∃ before after,
    log (world_of (run (S fuel) ctx w))
    = log w ++ before
      ++ CheckmarkValidation (next_message_id w) (player_ids_list game) 10 180
      :: after
    ∧ (ValidateReadyCheck (next_message_id w) ∈ after →
       ∃ seen last later,
         reactions (next_message_id w) = seen ++ last :: later
         ∧ (∀ r, r ∈ seen ++ [last] → r_time r < 180)
         ∧ (∀ p, p ∈ player_ids_list game → accepted_in (seen ++ [last]) p)
         ∧ (∀ r, r ∈ seen ++ [last] → r_user r ∈ player_ids_list game →
                 r_accept r = true)).
Proof.
  intros Hfind Hlt Hnodup Hlen.
  destruct (proposed_world_log ctx game w) as (shown & Hlog & Hshown).
  change validation_threshold with 10%nat in Hlog.
  change ready_check_timeout with 180 in Hlog.
  destruct (outcome_of_ready_check reactions ctx game w) as [[[|]|] drop] eqn:Hout.
  - rewrite (run_validated _ _ _ fuel _ _ _ _ Hfind Hlt Hout).
    destruct (checkmark_validation_validated _ _ _ _ _ Hout)
      as (seen & last & later & conf & Hev & Hinv & Htime & Hin & Ha & Hge).
    assert (∃ seen last later,
              reactions (next_message_id w) = seen ++ last :: later
              ∧ (∀ r, r ∈ seen ++ [last] → r_time r < 180)
              ∧ (∀ p, p ∈ player_ids_list game → accepted_in (seen ++ [last]) p)
              ∧ (∀ r, r ∈ seen ++ [last] → r_user r ∈ player_ids_list game →
                      r_accept r = true)) as Hunanimous.
    { exists seen, last, later. split_and!; [done| | |].
      - intros r [Hr|Hr%list_elem_of_singleton]%elem_of_app; [|by subst].
        by apply (inv_timely _ _ _ _ _ Hinv).
      - eapply threshold_reached_unanimous; eauto.
        rewrite Hlen. unfold validation_threshold. lia.
      - intros r [Hr|Hr%list_elem_of_singleton]%elem_of_app; [|by subst].
        by apply (inv_no_decliner _ _ _ _ _ Hinv). }
    destruct (session_add _ _) as [stored|]; cbn [world_of].
    + rewrite validated_world_log, Hlog, <- !app_assoc. cbn [app].
      eexists (_ :: _ :: shown), _. split; [reflexivity|done].
    + cbn [log record]. rewrite Hlog, <- !app_assoc. cbn [app].
      eexists (_ :: _ :: shown), _. split; [reflexivity|done].
  - rewrite (run_cancelled _ _ _ fuel _ _ _ _ Hfind Hlt Hout).
    destruct (head (elements drop)) as [first|].
    + destruct (run_log_extends find_best_game reactions session_add fuel ctx
                  (cancelled_world ctx game drop first w)) as [added Hadded].
      pose proof (run_validates_own _ _ _ _ _ _ _ (next_message_id w) Hadded) as Hown.
      rewrite Hadded, cancelled_world_log, Hlog, <- !app_assoc. cbn [app].
      eexists (_ :: _ :: shown), _. split; [reflexivity|].
      intros [?|[?|Hin]%elem_of_cons]%elem_of_cons; [done|done|].
      apply Hown in Hin. rewrite cancelled_world_next_message_id in Hin. lia.
    + cbn [world_of log record set_queue_players].
      rewrite Hlog, <- !app_assoc. cbn [app].
      eexists (_ :: _ :: shown), _. split; [reflexivity|].
      by intros ?%list_elem_of_singleton.
  - rewrite (run_timed_out _ _ _ fuel _ _ _ _ Hfind Hlt Hout).
    destruct (run_log_extends find_best_game reactions session_add fuel ctx
                (timed_out_world ctx game drop w)) as [added Hadded].
    pose proof (run_validates_own _ _ _ _ _ _ _ (next_message_id w) Hadded) as Hown.
    rewrite Hadded, timed_out_world_log, Hlog, <- !app_assoc. cbn [app].
    eexists (_ :: _ :: shown), _. split; [reflexivity|].
    intros [?|[?|Hin]%elem_of_cons]%elem_of_cons; [done|done|].
    apply Hown in Hin. rewrite timed_out_world_next_message_id in Hin. lia.
Qed.

(** C5: on a unanimous accept the game is committed to the store first;
    only when the store has taken it is the ready check validated, the
    reserved participants leave the queue and the validation is announced.
    When the store rejects the game the error is raised: nothing is
    validated, the participants stay reserved and no game is stored. *)
Theorem validated_only_after_commit fuel ctx w game drop :
  find_best_game (GameQueue (channel_id ctx) (queue_players w)) = Some game →
  (matchmaking_score game <? 0.2)%float = true →
  fresh_id (next_message_id w) (queue_players w) →
  checkmark_validation (reactions (next_message_id w)) (player_ids_list game)
                       validation_threshold ready_check_timeout = (Some true, drop) →
  ∃ w' before,
    Forall (λ a, is_validate_ready_check a = false) before
    ∧ match session_add (games w) game with
      | Some stored =>
          run (S fuel) ctx w = Returned w'
          ∧ games w' = games w ++ [stored]
          ∧ queue_players w'
            = filter (λ qp, ¬ (waiting qp ∧ qp_player_id qp ∈ player_ids_list game))
                     (queue_players w)
          ∧ log w' = log w ++ before
                     ++ [SessionAdd game;
                         ValidateReadyCheck (next_message_id w);
                         Send (channel_id ctx) (next_message_id w + 2)
                              (GameValidated (game_id stored))]
      | None =>
          run (S fuel) ctx w = Raised PersistenceError w'
          ∧ games w' = games w
          ∧ queue_players w'
            = start_ready_check (player_ids_list game) (channel_id ctx)
                                (next_message_id w) (queue_players w)
          ∧ log w' = log w ++ before ++ [SessionAdd game]
      end.
Proof.
  intros Hfind Hlt Hfresh Hcv.
  destruct (proposed_world_log ctx game w) as (shown & Hlog & Hshown).
  rewrite (run_validated _ _ _ fuel _ _ _ _ Hfind Hlt Hcv), proposed_world_games.
  assert (Forall (λ a, is_validate_ready_check a = false)
            ([Send (channel_id ctx) (next_message_id w)
                   (MatchFound (player_ids_list game)
                               (blue_expected_winrate game * 100)%float);
              StartReadyCheck (player_ids_list game) (channel_id ctx)
                              (next_message_id w)]
             ++ shown
             ++ [CheckmarkValidation (next_message_id w) (player_ids_list game)
                                     validation_threshold ready_check_timeout]))
    as Hbefore.
  { apply Forall_app. split; [by repeat constructor|].
    apply Forall_app. split; [|by repeat constructor].
    eapply Forall_impl; [exact Hshown|]. intros a. by destruct a. }
  destruct (session_add (games w) game) as [stored|].
  - eexists _, _. split; [exact Hbefore|]. split_and!; [done| | |].
    + apply validated_world_games.
    + by rewrite validated_world_queue_players, validate_start_fresh.
    + by rewrite validated_world_log, Hlog, <- !app_assoc.
  - eexists _, _. split; [exact Hbefore|]. split_and!; [done| | |].
    + cbn [games record]. apply proposed_world_games.
    + cbn [queue_players record]. apply proposed_world_queue_players.
    + cbn [log record]. by rewrite Hlog, <- !app_assoc.
Qed.

(** C6: when the last game of the participant who reports a win already
    has a winner, the command answers that the game is already scored and
    returns: the scoring function is not called and no game changes. *)
Theorem won_already_scored ctx w game side :
  get_last_game (author_id ctx) (guild_id ctx) (games w) = Some game →
  winner game = Some side →
  ∃ w',
    won get_last_game score_game_from_winning_player ctx w = Returned w'
    ∧ games w' = games w
    ∧ queue_players w' = queue_players w
    ∧ log w' = log w ++ [Send (channel_id ctx) (next_message_id w) AlreadyScored].
Proof.
  intros Hlast Hwinner. unfold won. rewrite Hlast. cbn [scored]. rewrite Hwinner.
  eexists. by split_and!.
Qed.

End Claims.

(** ** The game commands *)

Lemma cancel_game_scored get_last_game ctx w game side :
  get_last_game (author_id ctx) (guild_id ctx) (games w) = Some game →
  winner game = Some side →
  cancel_game get_last_game ctx w
  = Returned (ctx_send ctx NotInOngoingGame w).2.
Proof. intros Hlast Hw. unfold cancel_game. rewrite Hlast. cbn [scored]. by rewrite Hw. Qed.

Lemma cancel_game_unscored get_last_game ctx w game :
  get_last_game (author_id ctx) (guild_id ctx) (games w) = Some game →
  winner game = None →
  cancel_game get_last_game ctx w = Returned w.
Proof. intros Hlast Hw. unfold cancel_game. rewrite Hlast. cbn [scored]. by rewrite Hw. Qed.

(** C7: the cancel command refuses a game that is already scored, but on a
    game that is not scored yet it returns with the world as it was: the
    game is still in the store, nothing is deleted. *)
Theorem cancel_game_does_not_delete :
  scenario_last_game (author_id scenario_ctx) (guild_id scenario_ctx)
                     (games (scenario_played None))
  = Some (mkGame 1 [1; 2; 3; 4; 5; 6; 7; 8; 9; 10] 0.5 0.1 None)
  ∧ cancel_game scenario_last_game scenario_ctx (scenario_played None)
    = Returned (scenario_played None)
  ∧ games (scenario_played None)
    = [mkGame 1 [1; 2; 3; 4; 5; 6; 7; 8; 9; 10] 0.5 0.1 None]
  ∧ cancel_game scenario_last_game scenario_ctx (scenario_played (Some RED))
    = Returned (ctx_send scenario_ctx NotInOngoingGame (scenario_played (Some RED))).2.
Proof.
  assert (scenario_last_game (author_id scenario_ctx) (guild_id scenario_ctx)
                             (games (scenario_played None))
          = Some (mkGame 1 [1; 2; 3; 4; 5; 6; 7; 8; 9; 10] 0.5 0.1 None)) as Hlast
    by (vm_compute; reflexivity).
  split_and!; [exact Hlast| |reflexivity|].
  - by apply (cancel_game_unscored _ _ _ _ Hlast).
  - eapply cancel_game_scored; vm_compute; reflexivity.
Qed.

(** ** The claims on the queue of fourteen rows *)

Lemma scenario_find_game score :
  scenario_find score (GameQueue (channel_id scenario_ctx) (queue_players scenario_world))
  = Some (scenario_game score).
Proof.
  unfold scenario_find.
  assert (map qp_player_id
            (first_two_per_role
               (GameQueue (channel_id scenario_ctx) (queue_players scenario_world)))
          = [1; 2; 3; 4; 5; 6; 7; 8; 9; 10]) as -> by (vm_compute; reflexivity).
  rewrite decide_True; [done|]. split; [|done]. by_evaluation.
Defined.

Lemma scenario_fresh : fresh_id (next_message_id scenario_world) (queue_players scenario_world).
Proof. unfold fresh_id. by_evaluation. Defined.

(** The run where 3 declines: one ready check, then no candidate is left.
    Participant 3 has left channel 100 only; everybody else is back. *)
Example scenario_decline_run :
  let o := run_matchmaking_logic (scenario_find 0.1) scenario_decline scenario_store
                                 5 scenario_ctx scenario_world in
  (∃ w, o = Returned w)
  ∧ map (λ qp, (qp_player_id qp, qp_channel_id qp, qp_ready_check_id qp))
        (queue_players (world_of o))
    = [(1, 100, None); (2, 100, None); (4, 100, None); (5, 100, None); (6, 100, None);
       (7, 100, None); (8, 100, None); (9, 100, None); (10, 100, None);
       (1, 200, None); (3, 200, None); (8, 200, None); (11, 200, None)]
  ∧ log (world_of o)
    = [Send 100 1000 (MatchFound [1; 2; 3; 4; 5; 6; 7; 8; 9; 10] 50);
       StartReadyCheck [1; 2; 3; 4; 5; 6; 7; 8; 9; 10] 100 1000;
       Send 100 1001 (QueueEmbed [(TOP, []); (JGL, []); (MID, []); (BOT, []); (SUP, [])]);
       CheckmarkValidation 1000 [1; 2; 3; 4; 5; 6; 7; 8; 9; 10] 10 180;
       CancelReadyCheck 1000 {[3]} (Some 100) None;
       Send 100 1002 (PlayerCancelled 3)].
Proof. split; [by eexists|]. split; vm_compute; reflexivity. Qed.

(** The run where 8, 9 and 10 do not answer in time: they leave every
    channel, the seven who accepted are back. *)
Example scenario_timeout_run :
  let o := run_matchmaking_logic (scenario_find 0.1) scenario_timeout scenario_store
                                 5 scenario_ctx scenario_world in
  (∃ w, o = Returned w)
  ∧ map (λ qp, (qp_player_id qp, qp_channel_id qp, qp_ready_check_id qp))
        (queue_players (world_of o))
    = [(1, 100, None); (2, 100, None); (3, 100, None); (4, 100, None); (5, 100, None);
       (6, 100, None); (7, 100, None); (1, 200, None); (3, 200, None); (11, 200, None)]
  ∧ ready_checks_started (log (world_of o)) = 1%nat.
Proof. split; [by eexists|]. split; vm_compute; reflexivity. Qed.

(** The run where all ten accept: the game is stored, then the ten leave
    the table. *)
Example scenario_accept_run :
  let o := run_matchmaking_logic (scenario_find 0.1) scenario_accept scenario_store
                                 5 scenario_ctx scenario_world in
  (∃ w, o = Returned w)
  ∧ map (λ qp, (qp_player_id qp, qp_channel_id qp, qp_ready_check_id qp))
        (queue_players (world_of o))
    = [(11, 200, None)]
  ∧ games (world_of o) = [mkGame 1 [1; 2; 3; 4; 5; 6; 7; 8; 9; 10] 0.5 0.1 None]
  ∧ log (world_of o)
    = [Send 100 1000 (MatchFound [1; 2; 3; 4; 5; 6; 7; 8; 9; 10] 50);
       StartReadyCheck [1; 2; 3; 4; 5; 6; 7; 8; 9; 10] 100 1000;
       Send 100 1001 (QueueEmbed [(TOP, []); (JGL, []); (MID, []); (BOT, []); (SUP, [])]);
       CheckmarkValidation 1000 [1; 2; 3; 4; 5; 6; 7; 8; 9; 10] 10 180;
       SessionAdd (scenario_game 0.1);
       ValidateReadyCheck 1000;
       Send 100 1002 (GameValidated 1)].
Proof. split; [by eexists|]. split_and!; vm_compute; reflexivity. Qed.

(** The same ten with a store that rejects the game: the error ends the run,
    the ten stay reserved under the ready check and nothing is stored. *)
Example scenario_store_down_run :
  let o := run_matchmaking_logic (scenario_find 0.1) scenario_accept scenario_store_down
                                 5 scenario_ctx scenario_world in
  (∃ w, o = Raised PersistenceError w)
  ∧ map (λ qp, (qp_player_id qp, qp_channel_id qp, qp_ready_check_id qp))
        (queue_players (world_of o))
    = [(1, 100, Some 1000); (2, 100, Some 1000); (3, 100, Some 1000);
       (4, 100, Some 1000); (5, 100, Some 1000); (6, 100, Some 1000);
       (7, 100, Some 1000); (8, 100, Some 1000); (9, 100, Some 1000);
       (10, 100, Some 1000); (1, 200, Some 1000); (3, 200, Some 1000);
       (8, 200, Some 1000); (11, 200, None)]
  ∧ games (world_of o) = [].
Proof. split; [by eexists|]. split; vm_compute; reflexivity. Qed.

(** A best candidate at 0.3, and one whose score is not a number. *)
Example scenario_unbalanced_run :
  run_matchmaking_logic (scenario_find 0.3) scenario_accept scenario_store
                        5 scenario_ctx scenario_world
  = Returned (mkWorld scenario_pool [] ∅ 1001 [Send 100 1000 (NotStarted 80)])
  ∧ run_matchmaking_logic (scenario_find nan) scenario_accept scenario_store
                          5 scenario_ctx scenario_world
    = Returned scenario_world.
Proof. split; vm_compute; reflexivity. Qed.

(** A win reported once is scored; reported again it is refused. *)
Example scenario_won_twice :
  let won := won scenario_last_game scenario_score in
  games (world_of (won scenario_ctx (scenario_played None)))
  = [mkGame 1 [1; 2; 3; 4; 5; 6; 7; 8; 9; 10] 0.5 0.1 (Some BLUE)]
  ∧ log (world_of (won scenario_ctx (world_of (won scenario_ctx (scenario_played None)))))
    = [ScoreGameFromWinningPlayer 1 7; Send 100 1000 AlreadyScored].
Proof. split; vm_compute; reflexivity. Qed.

Lemma ready_check_started_iff_score_below_threshold_witness :
  let find := scenario_find 0.1 in
  let game := scenario_game 0.1 in
  let ctx := scenario_ctx in
  let w := scenario_world in
  find (GameQueue (channel_id ctx) (queue_players w)) = Some game
  ∧ ∃ added,
      log (world_of (run_matchmaking_logic find scenario_decline scenario_store 3 ctx w))
      = log w ++ added
      ∧ ((matchmaking_score game <? 0.2)%float = true
         ↔ StartReadyCheck (player_ids_list game) (channel_id ctx) (next_message_id w)
           ∈ added)
      ∧ ((0.2 <=? matchmaking_score game)%float = true →
         run_matchmaking_logic find scenario_decline scenario_store 3 ctx w
         = Returned (ctx_send ctx (NotStarted ((0.5 + matchmaking_score game) * 100)%float)
                              w).2
         ∧ added = [Send (channel_id ctx) (next_message_id w)
                         (NotStarted ((0.5 + matchmaking_score game) * 100)%float)]).
Proof.
  intros find game ctx w. split; [apply scenario_find_game|].
  apply (ready_check_started_iff_score_below_threshold
           find scenario_decline scenario_store 2 ctx w game).
  apply scenario_find_game.
Defined.

Lemma no_proposal_leaves_pools_unchanged_witness :
  let find := scenario_find 0.3 in
  let game := scenario_game 0.3 in
  let ctx := scenario_ctx in
  let w := scenario_world in
  (find (GameQueue (channel_id ctx) (queue_players w)) = None
   ∨ (∃ game,
        find (GameQueue (channel_id ctx) (queue_players w)) = Some game
        ∧ (0.2 <=? matchmaking_score game)%float = true))
  ∧ ∃ w' added,
      run_matchmaking_logic find scenario_accept scenario_store 1 ctx w = Returned w'
      ∧ queue_players w' = queue_players w
      ∧ (∀ channel,
           GameQueue channel (queue_players w') = GameQueue channel (queue_players w))
      ∧ log w' = log w ++ added
      ∧ Forall (λ a, is_queue_mutation a = false) added.
Proof.
  intros find game ctx w.
  assert (find (GameQueue (channel_id ctx) (queue_players w)) = None
          ∨ (∃ game,
               find (GameQueue (channel_id ctx) (queue_players w)) = Some game
               ∧ (0.2 <=? matchmaking_score game)%float = true)) as Hyp.
  { right. exists game. split; [apply scenario_find_game|]. vm_compute. reflexivity. }
  split; [exact Hyp|].
  exact (no_proposal_leaves_pools_unchanged find scenario_accept scenario_store 0 ctx w Hyp).
Defined.

Lemma decline_drop_set_is_not_empty_witness :
  let events := scenario_decline 1000 in
  let players := [1; 2; 3; 4; 5; 6; 7; 8; 9; 10] in
  let drop : gset Z := {[3]} in
  checkmark_validation events players validation_threshold ready_check_timeout
  = (Some false, drop)
  ∧ drop ≠ ∅
  ∧ (∃ first, head (elements drop) = Some first ∧ first ∈ drop)
  ∧ (∀ w', run_matchmaking_logic (scenario_find 0.1) scenario_decline scenario_store
                                 3 scenario_ctx scenario_world
           ≠ Raised StopIteration w').
Proof.
  intros events players drop.
  assert (checkmark_validation events players validation_threshold ready_check_timeout
          = (Some false, drop)) as Hyp by (vm_compute; reflexivity).
  split; [exact Hyp|].
  exact (decline_drop_set_is_not_empty (scenario_find 0.1) scenario_decline scenario_store
           events players validation_threshold ready_check_timeout drop
           3 scenario_ctx scenario_world Hyp).
Defined.

Lemma retry_terminates_witness :
  let find := scenario_find 0.1 in
  let ctx := scenario_ctx in
  let w := scenario_world in
  let run := run_matchmaking_logic find scenario_decline scenario_store in
  matchmaker_sound find
  ∧ (length (channel_rows (channel_id ctx) (queue_players w)) < 11)%nat
  ∧ (∃ w', (run 11%nat ctx w = Returned w' ∨ run 11%nat ctx w = Raised PersistenceError w')
           ∧ (ready_checks_started (log w')
              ≤ ready_checks_started (log w)
                + length (channel_rows (channel_id ctx) (queue_players w)))%nat
           ∧ (run 11%nat ctx w = Returned w' →
              find (GameQueue (channel_id ctx) (queue_players w')) = None
              ∨ (∃ game,
                   find (GameQueue (channel_id ctx) (queue_players w')) = Some game
                   ∧ (matchmaking_score game <? 0.2)%float = false)
              ∨ (∃ before message stored,
                   log w' = before ++ [ValidateReadyCheck message;
                                       Send (channel_id ctx) (message + 2)
                                            (GameValidated (game_id stored))])))
  ∧ (∀ game ready drop,
       find (GameQueue (channel_id ctx) (queue_players w)) = Some game →
       (matchmaking_score game <? 0.2)%float = true →
       checkmark_validation (scenario_decline (next_message_id w)) (player_ids_list game)
                            validation_threshold ready_check_timeout = (ready, drop) →
       ready ≠ Some true →
       ∃ w1,
         run 1%nat ctx w = OutOfFuel w1
         ∧ (∀ n, run (S n) ctx w = run n ctx w1)
         ∧ queue_players w1
           = cancel_ready_check (next_message_id w) drop
               (match ready with Some _ => Some (channel_id ctx) | None => None end)
               (match ready with Some _ => None | None => Some (guild_id ctx) end)
               (start_ready_check (player_ids_list game) (channel_id ctx)
                                  (next_message_id w) (queue_players w))
         ∧ (length (channel_rows (channel_id ctx) (queue_players w1))
            < length (channel_rows (channel_id ctx) (queue_players w)))%nat
         ∧ (find (GameQueue (channel_id ctx) (queue_players w1)) = None →
            ∀ n, run (S (S n)) ctx w = Returned w1))
  ∧ (find (GameQueue (channel_id ctx) (queue_players w)) = None
     ∨ (∃ game,
          find (GameQueue (channel_id ctx) (queue_players w)) = Some game
          ∧ (0.2 <=? matchmaking_score game)%float = true) →
     ∀ n, ∃ w', run (S n) ctx w = Returned w'
                ∧ queue_players w' = queue_players w
                ∧ ready_checks_started (log w') = ready_checks_started (log w)).
Proof.
  intros find ctx w run.
  assert (length (channel_rows (channel_id ctx) (queue_players w)) < 11)%nat as Hfuel
    by (vm_compute; lia).
  split; [apply scenario_find_sound|]. split; [exact Hfuel|].
  exact (retry_terminates find scenario_decline scenario_store 11 ctx w
           (scenario_find_sound 0.1) Hfuel).
Defined.

Lemma decline_drops_first_decliner_from_channel_witness :
  let find := scenario_find 0.1 in
  let game := scenario_game 0.1 in
  let ctx := scenario_ctx in
  let w := scenario_world in
  let drop : gset Z := {[3]} in
  let run := run_matchmaking_logic find scenario_decline scenario_store in
  find (GameQueue (channel_id ctx) (queue_players w)) = Some game
  ∧ (matchmaking_score game <? 0.2)%float = true
  ∧ fresh_id (next_message_id w) (queue_players w)
  ∧ checkmark_validation (scenario_decline (next_message_id w)) (player_ids_list game)
                         validation_threshold ready_check_timeout = (Some false, drop)
  ∧ ∃ seen decline later w',
      scenario_decline (next_message_id w) = seen ++ decline :: later
      ∧ r_accept decline = false
      ∧ r_user decline ∈ player_ids_list game
      ∧ (∀ r, r ∈ seen → r_user r ∈ player_ids_list game → r_accept r = true)
      ∧ drop = {[r_user decline]}
      ∧ (∀ later',
           checkmark_validation (seen ++ decline :: later') (player_ids_list game)
                                validation_threshold ready_check_timeout
           = (Some false, {[r_user decline]}))
      ∧ run 1%nat ctx w = OutOfFuel w'
      ∧ (∀ fuel, run (S fuel) ctx w = run fuel ctx w')
      ∧ (∀ fuel, ∃ later, log (world_of (run (S fuel) ctx w)) = log w' ++ later)
      ∧ queue_players w'
        = filter (λ qp, ¬ (waiting qp ∧ qp_player_id qp = r_user decline
                           ∧ qp_channel_id qp = channel_id ctx))
                 (queue_players w)
      ∧ games w' = games w
      ∧ ∃ before,
          log w' = log w ++ before
                   ++ [CancelReadyCheck (next_message_id w) drop
                                        (Some (channel_id ctx)) None;
                       Send (channel_id ctx) (next_message_id w + 2)
                            (PlayerCancelled (r_user decline))].
Proof.
  intros find game ctx w drop run.
  assert ((matchmaking_score game <? 0.2)%float = true) as Hlt
    by (vm_compute; reflexivity).
  assert (checkmark_validation (scenario_decline (next_message_id w))
            (player_ids_list game) validation_threshold ready_check_timeout
          = (Some false, drop)) as Hcv by (vm_compute; reflexivity).
  split; [apply scenario_find_game|]. split; [exact Hlt|].
  split; [apply scenario_fresh|]. split; [exact Hcv|].
  exact (decline_drops_first_decliner_from_channel find scenario_decline scenario_store
           ctx w game drop (scenario_find_game 0.1) Hlt scenario_fresh Hcv).
Defined.

Lemma timeout_drops_pending_everywhere_witness :
  let find := scenario_find 0.1 in
  let game := scenario_game 0.1 in
  let ctx := scenario_ctx in
  let w := scenario_world in
  let drop : gset Z := {[8; 9; 10]} in
  let run := run_matchmaking_logic find scenario_timeout scenario_store in
  find (GameQueue (channel_id ctx) (queue_players w)) = Some game
  ∧ (matchmaking_score game <? 0.2)%float = true
  ∧ fresh_id (next_message_id w) (queue_players w)
  ∧ checkmark_validation (scenario_timeout (next_message_id w)) (player_ids_list game)
                         validation_threshold ready_check_timeout = (None, drop)
  ∧ ∃ seen w',
      (scenario_timeout (next_message_id w) = seen
       ∨ ∃ late later, scenario_timeout (next_message_id w) = seen ++ late :: later
                       ∧ ready_check_timeout ≤ r_time late)
      ∧ (∀ r, r ∈ seen → r_time r < ready_check_timeout)
      ∧ (∀ p, p ∈ drop ↔ p ∈ player_ids_list game ∧ ¬ accepted_in seen p)
      ∧ run 1%nat ctx w = OutOfFuel w'
      ∧ (∀ fuel, run (S fuel) ctx w = run fuel ctx w')
      ∧ (∀ fuel, ∃ later, log (world_of (run (S fuel) ctx w)) = log w' ++ later)
      ∧ queue_players w'
        = filter (λ qp, ¬ (waiting qp ∧ qp_player_id qp ∈ drop)) (queue_players w)
      ∧ (∀ qp, accepted_in seen (qp_player_id qp) →
               qp ∈ queue_players w → qp ∈ queue_players w')
      ∧ games w' = games w
      ∧ ∃ before,
          log w' = log w ++ before
                   ++ [CancelReadyCheck (next_message_id w) drop None
                                        (Some (guild_id ctx));
                       Send (channel_id ctx) (next_message_id w + 2) CheckTimedOut].
Proof.
  intros find game ctx w drop run.
  assert ((matchmaking_score game <? 0.2)%float = true) as Hlt
    by (vm_compute; reflexivity).
  assert (checkmark_validation (scenario_timeout (next_message_id w))
            (player_ids_list game) validation_threshold ready_check_timeout
          = (None, drop)) as Hcv by (vm_compute; reflexivity).
  split; [apply scenario_find_game|]. split; [exact Hlt|].
  split; [apply scenario_fresh|]. split; [exact Hcv|].
  exact (timeout_drops_pending_everywhere find scenario_timeout scenario_store
           ctx w game drop (scenario_find_game 0.1) Hlt scenario_fresh Hcv).
Defined.

Lemma validated_only_when_unanimous_witness :
  let find := scenario_find 0.1 in
  let game := scenario_game 0.1 in
  let ctx := scenario_ctx in
  let w := scenario_world in
  let run := run_matchmaking_logic find scenario_accept scenario_store in
  find (GameQueue (channel_id ctx) (queue_players w)) = Some game
  ∧ (matchmaking_score game <? 0.2)%float = true
  ∧ NoDup (player_ids_list game)
  ∧ length (player_ids_list game) = 10%nat
  ∧ ∃ before after,
      log (world_of (run 1%nat ctx w))
      = log w ++ before
        ++ CheckmarkValidation (next_message_id w) (player_ids_list game) 10 180
        :: after
      ∧ (ValidateReadyCheck (next_message_id w) ∈ after →
         ∃ seen last later,
           scenario_accept (next_message_id w) = seen ++ last :: later
           ∧ (∀ r, r ∈ seen ++ [last] → r_time r < 180)
           ∧ (∀ p, p ∈ player_ids_list game → accepted_in (seen ++ [last]) p)
           ∧ (∀ r, r ∈ seen ++ [last] → r_user r ∈ player_ids_list game →
                   r_accept r = true)).
Proof.
  intros find game ctx w run.
  assert ((matchmaking_score game <? 0.2)%float = true) as Hlt
    by (vm_compute; reflexivity).
  assert (NoDup (player_ids_list game)) as Hnodup by by_evaluation.
  assert (length (player_ids_list game) = 10%nat) as Hlen by reflexivity.
  split; [apply scenario_find_game|]. split; [exact Hlt|].
  split; [exact Hnodup|]. split; [exact Hlen|].
  exact (validated_only_when_unanimous find scenario_accept scenario_store
           0 ctx w game (scenario_find_game 0.1) Hlt Hnodup Hlen).
Defined.

Lemma validated_only_after_commit_witness :
  let find := scenario_find 0.1 in
  let game := scenario_game 0.1 in
  let ctx := scenario_ctx in
  let w := scenario_world in
  let drop : gset Z := ∅ in
  let run := run_matchmaking_logic find scenario_accept scenario_store_down in
  find (GameQueue (channel_id ctx) (queue_players w)) = Some game
  ∧ (matchmaking_score game <? 0.2)%float = true
  ∧ fresh_id (next_message_id w) (queue_players w)
  ∧ checkmark_validation (scenario_accept (next_message_id w)) (player_ids_list game)
                         validation_threshold ready_check_timeout = (Some true, drop)
  ∧ ∃ w' before,
      Forall (λ a, is_validate_ready_check a = false) before
      ∧ match scenario_store_down (games w) game with
        | Some stored =>
            run 1%nat ctx w = Returned w'
            ∧ games w' = games w ++ [stored]
            ∧ queue_players w'
              = filter (λ qp, ¬ (waiting qp ∧ qp_player_id qp ∈ player_ids_list game))
                       (queue_players w)
            ∧ log w' = log w ++ before
                       ++ [SessionAdd game;
                           ValidateReadyCheck (next_message_id w);
                           Send (channel_id ctx) (next_message_id w + 2)
                                (GameValidated (game_id stored))]
        | None =>
            run 1%nat ctx w = Raised PersistenceError w'
            ∧ games w' = games w
            ∧ queue_players w'
              = start_ready_check (player_ids_list game) (channel_id ctx)
                                  (next_message_id w) (queue_players w)
            ∧ log w' = log w ++ before ++ [SessionAdd game]
        end.
Proof.
  intros find game ctx w drop run.
  assert ((matchmaking_score game <? 0.2)%float = true) as Hlt
    by (vm_compute; reflexivity).
  assert (checkmark_validation (scenario_accept (next_message_id w))
            (player_ids_list game) validation_threshold ready_check_timeout
          = (Some true, drop)) as Hcv by (vm_compute; reflexivity).
  split; [apply scenario_find_game|]. split; [exact Hlt|].
  split; [apply scenario_fresh|]. split; [exact Hcv|].
  exact (validated_only_after_commit find scenario_accept scenario_store_down
           0 ctx w game drop (scenario_find_game 0.1) Hlt scenario_fresh Hcv).
Defined.

Lemma won_already_scored_witness :
  let ctx := scenario_ctx in
  let w := scenario_played (Some BLUE) in
  let game := mkGame 1 [1; 2; 3; 4; 5; 6; 7; 8; 9; 10] 0.5 0.1 (Some BLUE) in
  scenario_last_game (author_id ctx) (guild_id ctx) (games w) = Some game
  ∧ winner game = Some BLUE
  ∧ ∃ w',
      won scenario_last_game scenario_score ctx w = Returned w'
      ∧ games w' = games w
      ∧ queue_players w' = queue_players w
      ∧ log w' = log w ++ [Send (channel_id ctx) (next_message_id w) AlreadyScored].
Proof.
  intros ctx w game.
  assert (scenario_last_game (author_id ctx) (guild_id ctx) (games w) = Some game)
    as Hlast by (vm_compute; reflexivity).
  split; [exact Hlast|]. split; [reflexivity|].
  exact (won_already_scored scenario_last_game scenario_score ctx w game BLUE
           Hlast eq_refl).
Defined.

(** ** The queue display *)


Lemma send_queue_explicit ctx w :
  send_queue ctx w
  = mkWorld (queue_players w) (games w)
      (<[channel_id ctx := next_message_id w]> (latest_queue_messages w))
      (next_message_id w + 1)
      (log w
       ++ Send (channel_id ctx) (next_message_id w)
               (QueueEmbed (queue_rows (channel_id ctx) (queue_players w)))
          :: match latest_queue_messages w !! channel_id ctx with
             | Some old => [DeleteMessage old]
             | None => []
             end).
Proof.
  unfold send_queue, queue_rows. simpl.
  destruct (latest_queue_messages w !! channel_id ctx); simpl; [|done].
  unfold record. simpl. by rewrite <- app_assoc.
Qed.

Lemma queue_message_ids_app c l1 l2 :
  queue_message_ids c (l1 ++ l2) = queue_message_ids c l1 ++ queue_message_ids c l2.
Proof. apply omap_app. Qed.

Lemma deleted_ids_app l1 l2 : deleted_ids (l1 ++ l2) = deleted_ids l1 ++ deleted_ids l2.
Proof. apply omap_app. Qed.

Lemma queue_message_ids_cons c a l :
  queue_message_ids c (a :: l)
  = match queue_message_id c a with
    | Some m => m :: queue_message_ids c l
    | None => queue_message_ids c l
    end.
Proof. reflexivity. Qed.

Lemma deleted_ids_cons a l :
  deleted_ids (a :: l)
  = match deleted_id a with Some m => m :: deleted_ids l | None => deleted_ids l end.
Proof. reflexivity. Qed.

Lemma display_neutral_ids c l :
  Forall display_neutral l →
  queue_message_ids c l = [] ∧ deleted_ids l = [].
Proof.
  induction 1 as [|a l [Hq Hd] _ [IHq IHd]]; [done|].
  by rewrite queue_message_ids_cons, deleted_ids_cons, Hq, Hd.
Qed.

Lemma display_coherent_neutral w w' added :
  display_coherent w →
  log w' = log w ++ added → Forall display_neutral added →
  latest_queue_messages w' = latest_queue_messages w →
  next_message_id w ≤ next_message_id w' →
  display_coherent w'.
Proof.
  intros [Hbelow Hone Hdbelow Hcached] Hlog Hneutral Hcache Hnext.
  unfold live_queue_message in *.
  assert (∀ c, queue_message_ids c (log w') = queue_message_ids c (log w)) as Hq.
  { intros c. rewrite Hlog, queue_message_ids_app.
    destruct (display_neutral_ids c added Hneutral) as [-> _]. by rewrite app_nil_r. }
  assert (deleted_ids (log w') = deleted_ids (log w)) as Hd.
  { rewrite Hlog, deleted_ids_app.
    destruct (display_neutral_ids 0 added Hneutral) as [_ ->]. by rewrite app_nil_r. }
  split.
  - intros c m. rewrite Hq. intros Hm. apply Hbelow in Hm. lia.
  - intros c c' m. rewrite !Hq. apply Hone.
  - intros m. rewrite Hd. intros Hm. apply Hdbelow in Hm. lia.
  - intros c m. unfold live_queue_message. rewrite Hq, Hd, Hcache. apply Hcached.
Qed.

Lemma display_coherent_send_queue ctx w :
  display_coherent w → display_coherent (send_queue ctx w).
Proof.
  intros [Hbelow Hone Hdbelow Hcached]. rewrite send_queue_explicit.
  unfold live_queue_message in *.
  set (c0 := channel_id ctx). set (n := next_message_id w).
  assert (∀ c, queue_message_ids c
                 (log w ++ Send c0 n (QueueEmbed (queue_rows c0 (queue_players w)))
                        :: match latest_queue_messages w !! c0 with
                           | Some old => [DeleteMessage old]
                           | None => []
                           end)
               = queue_message_ids c (log w) ++ (if decide (c0 = c) then [n] else []))
    as Hq.
  { intros c. rewrite queue_message_ids_app. f_equal.
    rewrite queue_message_ids_cons. cbn [queue_message_id].
    destruct (decide (c0 = c)); by destruct (latest_queue_messages w !! c0). }
  assert (deleted_ids
            (log w ++ Send c0 n (QueueEmbed (queue_rows c0 (queue_players w)))
                   :: match latest_queue_messages w !! c0 with
                      | Some old => [DeleteMessage old]
                      | None => []
                      end)
          = deleted_ids (log w)
            ++ match latest_queue_messages w !! c0 with Some old => [old] | None => [] end)
    as Hd.
  { rewrite deleted_ids_app. f_equal. rewrite deleted_ids_cons. cbn [deleted_id].
    by destruct (latest_queue_messages w !! c0). }
  split; cbn [log next_message_id latest_queue_messages].
  - intros c m. rewrite Hq, elem_of_app. intros [Hm|Hm].
    + apply Hbelow in Hm. lia.
    + destruct (decide (c0 = c)); [|by apply elem_of_nil in Hm].
      apply list_elem_of_singleton in Hm. subst. unfold n. lia.
  - intros c c' m. rewrite !Hq, !elem_of_app. intros [Hm|Hm] [Hm'|Hm'].
    + by eapply Hone.
    + destruct (decide (c0 = c')); [|by apply elem_of_nil in Hm'].
      apply list_elem_of_singleton in Hm'. subst m. apply Hbelow in Hm. unfold n in Hm. lia.
    + destruct (decide (c0 = c)); [|by apply elem_of_nil in Hm].
      apply list_elem_of_singleton in Hm. subst m. apply Hbelow in Hm'. unfold n in Hm'. lia.
    + destruct (decide (c0 = c)); [|by apply elem_of_nil in Hm].
      destruct (decide (c0 = c')); [|by apply elem_of_nil in Hm']. congruence.
  - intros m. rewrite Hd, elem_of_app. intros [Hm|Hm].
    + apply Hdbelow in Hm. lia.
    + destruct (latest_queue_messages w !! c0) as [old|] eqn:Hold;
        [|by apply elem_of_nil in Hm].
      apply list_elem_of_singleton in Hm. subst old.
      apply Hcached in Hold as [Hold _]. apply Hbelow in Hold. lia.
  - intros c m. unfold live_queue_message.
    rewrite Hq, Hd, elem_of_app, not_elem_of_app.
    destruct (decide (c0 = c)) as [<-|Hne].
    + rewrite lookup_insert_eq. split.
      * intros [= <-]. split; [right; by apply list_elem_of_singleton|]. split.
        -- intros Hdel. apply Hdbelow in Hdel. unfold n in Hdel. lia.
        -- destruct (latest_queue_messages w !! c0) as [old|] eqn:Hold;
             [|by intros ?%elem_of_nil].
           intros Hm%list_elem_of_singleton. subst old.
           apply Hcached in Hold as [Hold _]. apply Hbelow in Hold. unfold n in Hold. lia.
      * intros [[Hm|Hm] [Hnd Hno]].
        -- exfalso. assert (latest_queue_messages w !! c0 = Some m) as Hold
             by (by apply Hcached).
           rewrite Hold in Hno. apply Hno. by apply list_elem_of_singleton.
        -- apply list_elem_of_singleton in Hm. by subst.
    + rewrite lookup_insert_ne by done. rewrite Hcached. split.
      * intros [Hm Hnd]. split; [by left|]. split; [done|].
        destruct (latest_queue_messages w !! c0) as [old|] eqn:Hold;
          [|by intros ?%elem_of_nil].
        intros Hm'%list_elem_of_singleton. subst old.
        apply Hcached in Hold as [Hold _]. apply Hne. by eapply Hone.
      * intros [[Hm|Hm] [Hnd _]]; [done|by apply elem_of_nil in Hm].
Qed.

(** ** Relating the world before and after a run *)

Section RunRelation.

Variable find_best_game : list QueuePlayer → option Game.
Variable reactions : Z → list Reaction.
Variable session_add : list Game → Game → option Game.

Local Abbreviation run := (run_matchmaking_logic find_best_game reactions session_add).

(** A relation between worlds that holds along every step of the
    orchestrator holds between the start and the end of a run. *)
Lemma run_world_rel (R : World → World → Prop) ctx :
  (∀ w, R w w) →
  (∀ w1 w2 w3, R w1 w2 → R w2 w3 → R w1 w3) →
  (∀ w game,
     R w (ctx_send ctx (NotStarted ((0.5 + matchmaking_score game) * 100)%float) w).2) →
  (∀ w game, R w (proposed_world ctx game w)) →
  (∀ w game stored,
     R (proposed_world ctx game w) (validated_world ctx game stored w)) →
  (∀ w game,
     R (proposed_world ctx game w) (record (SessionAdd game) (proposed_world ctx game w))) →
  (∀ w game drop,
     R (proposed_world ctx game w)
       (record (CancelReadyCheck (next_message_id w) drop (Some (channel_id ctx)) None)
          (set_queue_players
             (cancel_ready_check (next_message_id w) drop (Some (channel_id ctx)) None)
             (proposed_world ctx game w)))) →
  (∀ w game drop first,
     R (proposed_world ctx game w) (cancelled_world ctx game drop first w)) →
  (∀ w game drop,
     R (proposed_world ctx game w) (timed_out_world ctx game drop w)) →
  ∀ fuel w, R w (world_of (run fuel ctx w)).
Proof.
  intros Hrefl Htrans Hunb Hprop Hval Hfail Hstop Hcan Htime.
  induction fuel as [|fuel IH]; intros w; [apply Hrefl|].
  destruct (run_cases find_best_game reactions session_add fuel ctx w)
    as [? ->|game ? ? ->|game drop Hfind ? Hout ->
        |game drop Hfind ? Hout ->|game drop Hfind ? Hout ->].
  - apply Hrefl.
  - destruct (0.2 <=? _)%float; [apply Hunb|apply Hrefl].
  - destruct (session_add _ _) as [stored|]; cbn [world_of];
      (eapply Htrans; [apply Hprop|]); [apply Hval|apply Hfail].
  - destruct (head (elements drop)) as [first|].
    + eapply Htrans; [apply Hprop|]. eapply Htrans; [apply Hcan|apply IH].
    + cbn [world_of]. eapply Htrans; [apply Hprop|apply Hstop].
  - eapply Htrans; [apply Hprop|]. eapply Htrans; [apply Htime|apply IH].
Qed.

Ltac display_neutral_actions :=
  repeat first
    [ apply Forall_nil_2
    | apply Forall_cons_2; [split; [intros ?; reflexivity|reflexivity]|] ].

Lemma ctx_send_display_coherent ctx content w :
  (∀ rows, content ≠ QueueEmbed rows) →
  display_coherent w → display_coherent (ctx_send ctx content w).2.
Proof.
  intros Hcontent Hw.
  apply (display_coherent_neutral w _ [Send (channel_id ctx) (next_message_id w) content]);
    try done; [|simpl; lia].
  constructor; [|done]. split; [|done]. intros c. destruct content; try done.
  by destruct (Hcontent rows).
Qed.

Lemma proposed_world_display_coherent ctx game w :
  display_coherent w → display_coherent (proposed_world ctx game w).
Proof.
  intros Hw. unfold proposed_world.
  eapply (display_coherent_neutral (send_queue ctx _) _ [_]); try done;
    [|display_neutral_actions].
  apply display_coherent_send_queue.
  eapply (display_coherent_neutral (ctx_send ctx _ w).2 _ [_]); try done;
    [|display_neutral_actions].
  by apply ctx_send_display_coherent.
Qed.

Lemma run_display_coherent fuel ctx w :
  display_coherent w → display_coherent (world_of (run fuel ctx w)).
Proof.
  revert fuel w.
  apply (run_world_rel (λ w w', display_coherent w → display_coherent w')); try tauto.
  - intros w game. by apply ctx_send_display_coherent.
  - intros w game. apply proposed_world_display_coherent.
  - intros w game stored Hw. unfold validated_world.
    apply ctx_send_display_coherent; [done|].
    eapply (display_coherent_neutral (proposed_world ctx game w) _
              [SessionAdd game; ValidateReadyCheck (next_message_id w)]); try done.
    + cbn [log record set_queue_players set_games]. by rewrite <- app_assoc.
    + display_neutral_actions.
  - intros w game Hw.
    eapply (display_coherent_neutral (proposed_world ctx game w) _ [_]); try done.
    display_neutral_actions.
  - intros w game drop Hw.
    eapply (display_coherent_neutral (proposed_world ctx game w) _ [_]); try done.
    display_neutral_actions.
  - intros w game drop first Hw. unfold cancelled_world.
    apply ctx_send_display_coherent; [done|].
    eapply (display_coherent_neutral (proposed_world ctx game w) _ [_]); try done.
    display_neutral_actions.
  - intros w game drop Hw. unfold timed_out_world.
    apply ctx_send_display_coherent; [done|].
    eapply (display_coherent_neutral (proposed_world ctx game w) _ [_]); try done.
    display_neutral_actions.
Qed.

End RunRelation.

(** ** Where a run sends and what it calls *)

Lemma send_queue_log_explicit ctx w :
  log (send_queue ctx w)
  = log w
    ++ Send (channel_id ctx) (next_message_id w)
            (QueueEmbed (queue_rows (channel_id ctx) (queue_players w)))
       :: match latest_queue_messages w !! channel_id ctx with
          | Some old => [DeleteMessage old]
          | None => []
          end.
Proof. by rewrite send_queue_explicit. Qed.

Lemma send_queue_in_channel ctx w :
  ∃ added, log (send_queue ctx w) = log w ++ added
           ∧ Forall (in_channel (channel_id ctx)) added.
Proof.
  rewrite send_queue_log_explicit. eexists. split; [done|].
  constructor; [done|]. destruct (_ !! _); by repeat constructor.
Qed.

Section RunChannel.

Variable find_best_game : list QueuePlayer → option Game.
Variable reactions : Z → list Reaction.
Variable session_add : list Game → Game → option Game.

Local Abbreviation run := (run_matchmaking_logic find_best_game reactions session_add).

Lemma proposed_world_in_channel ctx game w :
  ∃ added, log (proposed_world ctx game w) = log w ++ added
           ∧ Forall (in_channel (channel_id ctx)) added.
Proof.
  unfold proposed_world. cbn [log record].
  destruct (send_queue_in_channel ctx
    (record (StartReadyCheck (player_ids_list game) (channel_id ctx) (next_message_id w))
       (set_queue_players
          (start_ready_check (player_ids_list game) (channel_id ctx) (next_message_id w))
          (ctx_send ctx (MatchFound (player_ids_list game)
                                    (blue_expected_winrate game * 100)%float) w).2)))
    as (added & -> & Hadded).
  cbn [log record set_queue_players ctx_send snd]. rewrite <- !app_assoc.
  eexists. split; [done|].
  repeat (apply Forall_app; split); by repeat constructor.
Qed.

(** X6: whatever the matchmaker, the reactions and the store do, everything
    a run sends goes to the channel of the command, every ready check it
    starts and every decline it cancels is for that channel, and it never
    scores a game. *)
Theorem run_in_channel fuel ctx w :
  ∃ added, log (world_of (run fuel ctx w)) = log w ++ added
           ∧ Forall (in_channel (channel_id ctx)) added.
Proof.
  revert fuel w.
  apply (run_world_rel find_best_game reactions session_add
           (λ w w', ∃ added, log w' = log w ++ added
                             ∧ Forall (in_channel (channel_id ctx)) added)).
  - intros w. exists []. by rewrite app_nil_r.
  - intros w1 w2 w3 (a1 & H1 & Ha1) (a2 & H2 & Ha2). exists (a1 ++ a2).
    rewrite H2, H1, <- app_assoc. split; [done|]. by apply Forall_app.
  - intros w game. eexists [_]. split; [done|]. by repeat constructor.
  - intros w game. apply proposed_world_in_channel.
  - intros w game stored. rewrite validated_world_log. eexists. split; [done|].
    by repeat constructor.
  - intros w game. eexists [_]. split; [done|]. by repeat constructor.
  - intros w game drop. eexists [_]. split; [done|]. by repeat constructor.
  - intros w game drop first. rewrite cancelled_world_log. eexists. split; [done|].
    by repeat constructor.
  - intros w game drop. rewrite timed_out_world_log. eexists. split; [done|].
    by repeat constructor.
Qed.

End RunChannel.

(** ** Ready checks opened and closed, games committed *)

Lemma ready_checks_started_cons a l :
  ready_checks_started (a :: l)
  = ((if is_start_ready_check a then 1 else 0) + ready_checks_started l)%nat.
Proof. unfold ready_checks_started. simpl. by destruct (is_start_ready_check a). Qed.

Lemma ready_checks_closed_app last_open l1 l2 :
  ready_checks_closed false l1 → ready_checks_closed last_open l2 →
  ready_checks_closed last_open (l1 ++ l2).
Proof.
  intros H1 H2. induction l1 as [|a l1 IH]; [done|].
  destruct H1 as [Ha H1]. split; [|by apply IH].
  destruct a; try done. destruct Ha as [Ha|[? _]]; [|done].
  left. rewrite existsb_app, Ha. done.
Qed.

Lemma ready_checks_closed_none last_open l :
  Forall (λ a, is_queue_mutation a = false) l → ready_checks_closed last_open l.
Proof.
  induction 1 as [|a l Ha _ IH]; [done|]. split; [|done]. by destruct a.
Qed.

Lemma ready_checks_closed_split last_open before players channel message after :
  ready_checks_closed last_open
    (before ++ StartReadyCheck players channel message :: after) →
  existsb (closes_ready_check message) after = true
  ∨ (last_open = true ∧ Forall (λ a, is_queue_mutation a = false) after).
Proof.
  induction before as [|a before IH]; intros [Ha H]; [done|by apply IH].
Qed.

Section RunBalance.

Variable find_best_game : list QueuePlayer → option Game.
Variable reactions : Z → list Reaction.
Variable session_add : list Game → Game → option Game.

Local Abbreviation run := (run_matchmaking_logic find_best_game reactions session_add).

(** The calls of one round: the proposal, then what resolved it. *)
Lemma round_closed last_open ctx game w (resolved : list Action) :
  (existsb (closes_ready_check (next_message_id w)) resolved = true
   ∨ (last_open = true ∧ Forall (λ a, is_queue_mutation a = false) resolved)) →
  ready_checks_closed last_open resolved →
  ∃ added,
    log (proposed_world ctx game w) ++ resolved = log w ++ added
    ∧ ready_checks_closed last_open added.
Proof.
  intros Hclose Hresolved.
  destruct (proposed_world_log ctx game w) as (shown & -> & Hshown).
  rewrite <- !app_assoc. eexists. split; [reflexivity|].
  cbn [app ready_checks_closed]. split; [done|]. split.
  - destruct Hclose as [Hclose|[-> Hnone]].
    + left. rewrite existsb_app. cbn [app existsb closes_ready_check orb].
      rewrite Hclose. by rewrite !orb_true_r.
    + right. split; [done|]. apply Forall_app. split; [done|].
      by constructor.
  - apply ready_checks_closed_app; [by apply ready_checks_closed_none|].
    by split.
Qed.

Lemma run_ready_checks_closed fuel ctx w :
  ∃ added,
    log (world_of (run fuel ctx w)) = log w ++ added
    ∧ ready_checks_closed (left_open (run fuel ctx w)) added.
Proof.
  revert w. induction fuel as [|fuel IH]; intros w.
  { exists []. split; [by rewrite app_nil_r|done]. }
  destruct (run_cases find_best_game reactions session_add fuel ctx w)
    as [? ->|game ? ? ->|game drop Hfind ? Hout ->
        |game drop Hfind ? Hout ->|game drop Hfind ? Hout ->].
  - exists []. split; [by rewrite app_nil_r|done].
  - destruct (0.2 <=? _)%float.
    + eexists [_]. by split.
    + exists []. split; [by rewrite app_nil_r|done].
  - destruct (session_add _ _) as [stored|]; cbn [world_of left_open].
    + rewrite validated_world_log. apply round_closed; [left|by cbn].
      cbn [existsb closes_ready_check]. by rewrite bool_decide_eq_true_2.
    + cbn [log record]. apply round_closed; [right|by cbn].
      split; [done|]. by repeat constructor.
  - destruct (head (elements drop)) as [first|].
    + destruct (IH (cancelled_world ctx game drop first w)) as (added & -> & Hadded).
      rewrite cancelled_world_log, <- app_assoc. apply round_closed.
      * left. cbn [app existsb closes_ready_check]. by rewrite bool_decide_eq_true_2.
      * cbn [app ready_checks_closed]. by split_and!.
    + cbn [world_of left_open log record set_queue_players].
      apply round_closed; [left|by cbn].
      cbn [existsb closes_ready_check]. by rewrite bool_decide_eq_true_2.
  - destruct (IH (timed_out_world ctx game drop w)) as (added & -> & Hadded).
    rewrite timed_out_world_log, <- app_assoc. apply round_closed.
    + left. cbn [app existsb closes_ready_check]. by rewrite bool_decide_eq_true_2.
    + cbn [app ready_checks_closed]. by split_and!.
Qed.

(** X8: a run commits at most one game: either the store is as it was, or
    the run returned after the store took exactly one game, appended to the
    stored games. *)
Theorem run_commits_at_most_one_game fuel ctx w :
  games (world_of (run fuel ctx w)) = games w
  ∨ ∃ game stored w',
      run fuel ctx w = Returned w'
      ∧ session_add (games w) game = Some stored
      ∧ games w' = games w ++ [stored].
Proof.
  revert w. induction fuel as [|fuel IH]; intros w; [by left|].
  destruct (run_cases find_best_game reactions session_add fuel ctx w)
    as [? ->|game ? ? ->|game drop Hfind ? Hout ->
        |game drop Hfind ? Hout ->|game drop Hfind ? Hout ->].
  - by left.
  - left. by destruct (0.2 <=? _)%float.
  - rewrite proposed_world_games.
    destruct (session_add (games w) game) as [stored|] eqn:Hadd.
    + right. exists game, stored, (validated_world ctx game stored w).
      split_and!; [done|done|]. unfold validated_world.
      cbn [ctx_send snd games record set_queue_players set_games].
      by rewrite proposed_world_games.
    + left. cbn [world_of games record]. apply proposed_world_games.
  - destruct (head (elements drop)) as [first|].
    + assert (games (cancelled_world ctx game drop first w) = games w) as Hg.
      { unfold cancelled_world. cbn [ctx_send snd games record set_queue_players].
        apply proposed_world_games. }
      destruct (IH (cancelled_world ctx game drop first w))
        as [Hsame|(g & stored & w' & Hrun & Hadd & Hgames)].
      * left. by rewrite Hsame.
      * right. exists g, stored, w'. by rewrite <- Hg.
    + left. cbn [world_of games record set_queue_players]. apply proposed_world_games.
  - assert (games (timed_out_world ctx game drop w) = games w) as Hg.
    { unfold timed_out_world. cbn [ctx_send snd games record set_queue_players].
      apply proposed_world_games. }
    destruct (IH (timed_out_world ctx game drop w))
      as [Hsame|(g & stored & w' & Hrun & Hadd & Hgames)].
    + left. by rewrite Hsame.
    + right. exists g, stored, w'. by rewrite <- Hg.
Qed.

End RunBalance.
Lemma SFcompare_finite_nan m0 e0 (y : spec_float) :
  SFltb y (S754_finite false m0 e0) = false →
  SFleb (S754_finite false m0 e0) y = false →
  y = S754_nan.
Proof.
  unfold SFleb, SFltb.
  destruct y as [s|s| |s m e]; cbn [SFcompare]; try discriminate; try reflexivity.
  all: destruct s; try discriminate.
  rewrite (Z.compare_antisym e e0).
  destruct (e ?= e0)%Z; cbn [CompOpp]; try discriminate.
  change (PosDef.Pos.compare_cont Eq m0 m) with (Pos.compare m0 m).
  change (PosDef.Pos.compare_cont Eq m m0) with (Pos.compare m m0).
  rewrite (Pos.compare_antisym m0 m).
  destruct (m0 ?= m)%positive; cbn [CompOpp]; discriminate.
Qed.

Lemma is_nan_spec (x : float) : is_nan x = true ↔ Prim2SF x = S754_nan.
Proof.
  unfold is_nan. rewrite FloatAxioms.eqb_spec. unfold SFeqb.
  destruct (Prim2SF x) as [s|s| |s m e]; cbn [SFcompare].
  - by destruct s.
  - by destruct s.
  - done.
  - destruct s; rewrite Z.compare_refl; cbn [CompOpp];
      change (PosDef.Pos.compare_cont Eq m m) with (Pos.compare m m);
      rewrite Pos.compare_refl; done.
Qed.

Lemma score_unordered_iff_nan (score : float) :
  (score <? 0.2)%float = false ∧ (0.2 <=? score)%float = false ↔ is_nan score = true.
Proof.
  rewrite is_nan_spec, leb_spec, ltb_spec, Prim2SF_threshold. split.
  - intros [? ?]. by eapply SFcompare_finite_nan.
  - intros ->. done.
Qed.

Lemma app_not_self {A} (l added : list A) : l ++ added = l → added = [].
Proof.
  intros Heq. rewrite <- (app_nil_r l) in Heq at 2. by apply app_inv_head in Heq.
Qed.

Section Silent.

Variable find_best_game : list QueuePlayer → option Game.
Variable reactions : Z → list Reaction.
Variable session_add : list Game → Game → option Game.

Local Abbreviation run := (run_matchmaking_logic find_best_game reactions session_add).

(** X9: the orchestrator returns without a message, a ready check or any
    other change exactly when the score of the candidate is not a number:
    the third test of the source is an [elif], not an [else]. *)
Theorem run_silent_iff_nan fuel ctx w game :
  find_best_game (GameQueue (channel_id ctx) (queue_players w)) = Some game →
  run (S fuel) ctx w = Returned w ↔ is_nan (matchmaking_score game) = true.
Proof.
  intros Hfind. rewrite <- score_unordered_iff_nan. split.
  - intros Hrun. destruct (matchmaking_score game <? 0.2)%float eqn:Hlt.
    + exfalso.
      destruct (run_extends_proposed find_best_game reactions session_add
                  fuel ctx w game Hfind Hlt) as [added Hadded].
      destruct (proposed_world_log ctx game w) as (shown & Hlog & _).
      rewrite Hrun, Hlog in Hadded. cbn [world_of] in Hadded.
      rewrite <- !app_assoc in Hadded. symmetry in Hadded.
      by apply app_not_self in Hadded.
    + split; [done|].
      rewrite (run_unbalanced _ _ _ fuel ctx w game Hfind Hlt) in Hrun.
      destruct (0.2 <=? matchmaking_score game)%float; [|done].
      exfalso. injection Hrun as Hrun.
      apply (f_equal log) in Hrun. cbn [ctx_send snd log] in Hrun.
      by apply app_not_self in Hrun.
  - intros [Hlt Hge].
    by rewrite (run_unbalanced _ _ _ fuel ctx w game Hfind Hlt), Hge.
Qed.

End Silent.

(** ** The commands *)

Lemma display_coherent_initial qps gs n : display_coherent (mkWorld qps gs ∅ n []).
Proof.
  split; cbn [log latest_queue_messages].
  - by intros c m ?%elem_of_nil.
  - by intros c c' m ?%elem_of_nil.
  - by intros m ?%elem_of_nil.
  - intros c m. unfold live_queue_message. rewrite lookup_empty.
    split; [done|]. by intros [?%elem_of_nil _].
Qed.

(** X1: two calls of [send_queue] in a row: the second sends the queue under
    the next id and deletes exactly the message the first one sent when both
    are for the same channel; for another channel it deletes what that
    channel had in the cache, if anything, and leaves the first message. *)
Theorem send_queue_twice ctx1 ctx2 w :
  log (send_queue ctx2 (send_queue ctx1 w))
  = log (send_queue ctx1 w)
    ++ Send (channel_id ctx2) (next_message_id w + 1)
            (QueueEmbed (queue_rows (channel_id ctx2) (queue_players w)))
       :: (if decide (channel_id ctx1 = channel_id ctx2)
           then [DeleteMessage (next_message_id w)]
           else match latest_queue_messages w !! channel_id ctx2 with
                | Some old => [DeleteMessage old]
                | None => []
                end).
Proof.
  rewrite (send_queue_log_explicit ctx2). rewrite !send_queue_explicit.
  cbn [log queue_players next_message_id latest_queue_messages].
  destruct (decide (channel_id ctx1 = channel_id ctx2)) as [->|Hne].
  - by rewrite lookup_insert_eq.
  - by rewrite lookup_insert_ne.
Qed.

Section Commands.

Variable find_best_game : list QueuePlayer → option Game.
Variable reactions : Z → list Reaction.
Variable session_add : list Game → Game → option Game.
Variable add_player : Z → string → Role → Z → Z → list QueuePlayer → list QueuePlayer.
Variable remove_player : Z → Z → list QueuePlayer → list QueuePlayer.

Local Abbreviation run := (run_matchmaking_logic find_best_game reactions session_add).
Local Abbreviation queue_ :=
  (queue find_best_game reactions session_add add_player).

Lemma send_queue_cached ctx w :
  latest_queue_messages (send_queue ctx w) !! channel_id ctx
  = Some (next_message_id (send_queue ctx w) - 1)
  ∧ Send (channel_id ctx) (next_message_id (send_queue ctx w) - 1)
         (QueueEmbed (queue_rows (channel_id ctx) (queue_players (send_queue ctx w))))
    ∈ log (send_queue ctx w).
Proof.
  rewrite send_queue_explicit.
  cbn [log queue_players next_message_id latest_queue_messages].
  replace (next_message_id w + 1 - 1) with (next_message_id w) by lia.
  split; [apply lookup_insert_eq|].
  apply elem_of_app. right. apply list_elem_of_here.
Qed.

Lemma queue_added_player fuel ctx author_name role w :
  queue_ fuel ctx author_name role w
  = match run fuel ctx
            (set_queue_players
               (add_player (author_id ctx) author_name role (channel_id ctx)
                           (guild_id ctx)) w) with
    | Returned w' => Returned (send_queue ctx w')
    | o => o
    end.
Proof. unfold queue. by destruct (run_matchmaking_logic _ _ _ _ _ _). Qed.

Lemma set_queue_players_display_coherent f w :
  display_coherent w → display_coherent (set_queue_players f w).
Proof.
  intros Hw. apply (display_coherent_neutral w _ []); try done.
  by rewrite app_nil_r.
Qed.

Lemma queue_display_coherent fuel ctx author_name role w :
  display_coherent w →
  display_coherent (world_of (queue_ fuel ctx author_name role w)).
Proof.
  intros Hw. rewrite queue_added_player.
  pose proof (run_display_coherent find_best_game reactions session_add fuel ctx _
                (set_queue_players_display_coherent
                   (add_player (author_id ctx) author_name role (channel_id ctx)
                               (guild_id ctx)) w Hw)) as Hrun.
  destruct (run _ _ _) as [w1|e w1|w1]; try done.
  by apply display_coherent_send_queue.
Qed.

Lemma leave_queue_display_coherent ctx w :
  display_coherent w →
  display_coherent (world_of (leave_queue remove_player ctx w)).
Proof.
  intros Hw. unfold leave_queue. cbn [world_of].
  by apply display_coherent_send_queue, set_queue_players_display_coherent.
Qed.

End Commands.

(** ** The display after a command *)

Lemma live_queue_message_cached w c m :
  display_coherent w →
  live_queue_message c (log w) m ↔ latest_queue_messages w !! c = Some m.
Proof. intros Hw. symmetry. apply (dc_cached w Hw). Qed.

Lemma scenario_world_coherent : display_coherent scenario_world.
Proof. apply display_coherent_initial. Qed.

Section CommandProperties.

Variable find_best_game : list QueuePlayer → option Game.
Variable reactions : Z → list Reaction.
Variable session_add : list Game → Game → option Game.
Variable add_player : Z → string → Role → Z → Z → list QueuePlayer → list QueuePlayer.
Variable remove_player : Z → Z → list QueuePlayer → list QueuePlayer.

Local Abbreviation run := (run_matchmaking_logic find_best_game reactions session_add).

(** X2: [send_queue] keeps the display coherent: afterwards the only live
    queue message of the channel is the one it has just sent, and the live
    queue messages of the other channels are the same as before. *)
Theorem send_queue_one_live_message ctx w :
  display_coherent w →
  display_coherent (send_queue ctx w)
  ∧ (∀ m, live_queue_message (channel_id ctx) (log (send_queue ctx w)) m
          ↔ m = next_message_id w)
  ∧ (∀ c m, c ≠ channel_id ctx →
            live_queue_message c (log (send_queue ctx w)) m
            ↔ live_queue_message c (log w) m).
Proof.
  intros Hw. pose proof (display_coherent_send_queue ctx w Hw) as Hw'.
  split; [done|]. split.
  - intros m. rewrite (live_queue_message_cached _ _ _ Hw'), send_queue_explicit.
    cbn [latest_queue_messages]. rewrite lookup_insert_eq.
    split; [by intros [= <-]|by intros ->].
  - intros c m Hc.
    rewrite (live_queue_message_cached _ _ _ Hw'), (live_queue_message_cached _ _ _ Hw).
    rewrite send_queue_explicit. cbn [latest_queue_messages].
    by rewrite lookup_insert_ne.
Qed.

(** X3: a run of the orchestrator keeps the display coherent, however it
    ends: in every channel at most one queue message is live, the one in the
    cache. *)
Theorem run_one_live_message_per_channel fuel ctx w :
  display_coherent w →
  display_coherent (world_of (run fuel ctx w))
  ∧ ∀ c m m',
      live_queue_message c (log (world_of (run fuel ctx w))) m →
      live_queue_message c (log (world_of (run fuel ctx w))) m' →
      m = m'.
Proof.
  intros Hw.
  pose proof (run_display_coherent find_best_game reactions session_add fuel ctx w Hw)
    as Hw'.
  split; [done|]. intros c m m'.
  rewrite !(live_queue_message_cached _ _ _ Hw'). congruence.
Qed.

(** X4: when the queue command returns, the display is coherent and the one
    live queue message of the channel is the last message sent, which shows
    the queue as the command leaves it. *)
Theorem queue_shows_final_queue fuel ctx author_name role w w' :
  display_coherent w →
  queue find_best_game reactions session_add add_player fuel ctx author_name role w
  = Returned w' →
  display_coherent w'
  ∧ (∀ m, live_queue_message (channel_id ctx) (log w') m ↔ m = next_message_id w' - 1)
  ∧ Send (channel_id ctx) (next_message_id w' - 1)
         (QueueEmbed (queue_rows (channel_id ctx) (queue_players w')))
    ∈ log w'.
Proof.
  intros Hw Hqueue.
  pose proof (queue_display_coherent find_best_game reactions session_add add_player
                fuel ctx author_name role w Hw) as Hw'.
  rewrite Hqueue in Hw'. cbn [world_of] in Hw'.
  rewrite queue_added_player in Hqueue.
  destruct (run_matchmaking_logic _ _ _ _ _ _) as [w1|e w1|w1]; try done.
  injection Hqueue as <-.
  destruct (send_queue_cached ctx w1) as [Hcache Hsent].
  split_and!; [done| |done].
  intros m. rewrite (live_queue_message_cached _ _ _ Hw'), Hcache.
  split; [by intros [= <-]|by intros ->].
Qed.

(** X5: the leave command always returns; it changes the queue table by
    [remove_player] only, starts no ready check and stores no game, whoever
    is waiting; the display stays coherent and the one live queue message of
    the channel shows the queue after the removal. *)
Theorem leave_queue_shows_queue ctx w :
  display_coherent w →
  ∃ w',
    leave_queue remove_player ctx w = Returned w'
    ∧ queue_players w'
      = remove_player (author_id ctx) (channel_id ctx) (queue_players w)
    ∧ games w' = games w
    ∧ ready_checks_started (log w') = ready_checks_started (log w)
    ∧ display_coherent w'
    ∧ (∀ m, live_queue_message (channel_id ctx) (log w') m ↔ m = next_message_id w)
    ∧ Send (channel_id ctx) (next_message_id w)
           (QueueEmbed (queue_rows (channel_id ctx) (queue_players w')))
      ∈ log w'.
Proof.
  intros Hw. unfold leave_queue. eexists. split; [done|].
  set (w1 := set_queue_players (remove_player (author_id ctx) (channel_id ctx)) w).
  assert (display_coherent w1) as Hw1 by by apply set_queue_players_display_coherent.
  pose proof (display_coherent_send_queue ctx w1 Hw1) as Hw'.
  split_and!.
  - by rewrite send_queue_explicit.
  - by rewrite send_queue_explicit.
  - rewrite send_queue_log_explicit. cbn [log w1 set_queue_players].
    rewrite ready_checks_started_app, ready_checks_started_cons.
    cbn [is_start_ready_check]. destruct (_ !! _); cbn; lia.
  - done.
  - intros m. rewrite (live_queue_message_cached _ _ _ Hw'), send_queue_explicit.
    cbn [latest_queue_messages]. rewrite lookup_insert_eq.
    split; [by intros [= <-]|by intros ->].
  - rewrite send_queue_explicit. cbn [log queue_players next_message_id].
    apply elem_of_app. right. apply list_elem_of_here.
Qed.

(** X7: every ready check a run starts is closed later in the same run
    under its own message id, by its validation or by its cancellation; the
    one exception is the ready check whose game the store rejected: the run
    then ends on the store's error, and makes no call on the queue table
    after having started it. *)
Theorem run_closes_its_ready_checks fuel ctx w :
  ∃ added,
    log (world_of (run fuel ctx w)) = log w ++ added
    ∧ ∀ before players channel message after,
        added = before ++ StartReadyCheck players channel message :: after →
        (∃ a, a ∈ after ∧ closes_ready_check message a = true)
        ∨ ((∃ w', run fuel ctx w = Raised PersistenceError w')
           ∧ Forall (λ a, is_queue_mutation a = false) after).
Proof.
  destruct (run_ready_checks_closed find_best_game reactions session_add fuel ctx w)
    as (added & Hlog & Hclosed).
  exists added. split; [done|].
  intros before players channel message after ->.
  apply ready_checks_closed_split in Hclosed as [Hclosed|[Hopen Hnone]].
  - left. apply existsb_exists in Hclosed as (a & Ha & Hclose).
    exists a. split; [by apply list_elem_of_In|done].
  - right. split; [|done].
    destruct (run fuel ctx w) as [?|[| |] w'|?]; try done. by exists w'.
Qed.

End CommandProperties.

(** ** The commands on the queue of fourteen rows *)

(** Participant 12 joins channel 100 while the best match is unbalanced:
    the queue is shown with the new name.  Then participant 1 leaves. *)
Example scenario_queue_then_leave :
  let joined :=
    world_of (queue (scenario_find 0.3) scenario_accept scenario_store scenario_add_player
                    5 (mkContext 100 7 12) "twelve" TOP scenario_world) in
  log joined
  = [Send 100 1000 (NotStarted 80);
     Send 100 1001
       (QueueEmbed [(TOP, ["player"; "player"; "twelve"]); (JGL, ["player"; "player"]);
                    (MID, ["player"; "player"]); (BOT, ["player"; "player"]);
                    (SUP, ["player"; "player"])])]
  ∧ log (world_of (leave_queue scenario_remove_player scenario_ctx joined))
    = log joined
      ++ [Send 100 1002
            (QueueEmbed [(TOP, ["player"; "twelve"]); (JGL, ["player"; "player"]);
                         (MID, ["player"; "player"]); (BOT, ["player"; "player"]);
                         (SUP, ["player"; "player"])]);
          DeleteMessage 1001].
Proof. split; vm_compute; reflexivity. Qed.

Lemma send_queue_one_live_message_witness :
  let ctx := scenario_ctx in
  let w := scenario_world in
  display_coherent w
  ∧ display_coherent (send_queue ctx w)
  ∧ (∀ m, live_queue_message (channel_id ctx) (log (send_queue ctx w)) m
          ↔ m = next_message_id w)
  ∧ (∀ c m, c ≠ channel_id ctx →
            live_queue_message c (log (send_queue ctx w)) m
            ↔ live_queue_message c (log w) m).
Proof.
  intros ctx w. split; [apply scenario_world_coherent|].
  exact (send_queue_one_live_message ctx w scenario_world_coherent).
Defined.

Lemma run_one_live_message_per_channel_witness :
  let ctx := scenario_ctx in
  let w := scenario_world in
  let run := run_matchmaking_logic (scenario_find 0.1) scenario_decline scenario_store in
  display_coherent w
  ∧ display_coherent (world_of (run 5%nat ctx w))
  ∧ ∀ c m m',
      live_queue_message c (log (world_of (run 5%nat ctx w))) m →
      live_queue_message c (log (world_of (run 5%nat ctx w))) m' →
      m = m'.
Proof.
  intros ctx w run. split; [apply scenario_world_coherent|].
  exact (run_one_live_message_per_channel (scenario_find 0.1) scenario_decline
           scenario_store 5 ctx w scenario_world_coherent).
Defined.

Lemma queue_shows_final_queue_witness :
  let ctx := mkContext 100 7 12 in
  let w := scenario_world in
  let w' :=
    world_of (queue (scenario_find 0.3) scenario_accept scenario_store scenario_add_player
                    5 ctx "twelve" TOP w) in
  display_coherent w
  ∧ queue (scenario_find 0.3) scenario_accept scenario_store scenario_add_player
          5 ctx "twelve" TOP w = Returned w'
  ∧ display_coherent w'
  ∧ (∀ m, live_queue_message (channel_id ctx) (log w') m ↔ m = next_message_id w' - 1)
  ∧ Send (channel_id ctx) (next_message_id w' - 1)
         (QueueEmbed (queue_rows (channel_id ctx) (queue_players w')))
    ∈ log w'.
Proof.
  intros ctx w w'.
  assert (queue (scenario_find 0.3) scenario_accept scenario_store scenario_add_player
                5 ctx "twelve" TOP w = Returned w') as Hqueue
    by (vm_compute; reflexivity).
  split; [apply scenario_world_coherent|]. split; [exact Hqueue|].
  exact (queue_shows_final_queue (scenario_find 0.3) scenario_accept scenario_store
           scenario_add_player 5 ctx "twelve" TOP w w' scenario_world_coherent Hqueue).
Defined.

Lemma leave_queue_shows_queue_witness :
  let ctx := scenario_ctx in
  let w := scenario_world in
  display_coherent w
  ∧ ∃ w',
      leave_queue scenario_remove_player ctx w = Returned w'
      ∧ queue_players w'
        = scenario_remove_player (author_id ctx) (channel_id ctx) (queue_players w)
      ∧ games w' = games w
      ∧ ready_checks_started (log w') = ready_checks_started (log w)
      ∧ display_coherent w'
      ∧ (∀ m, live_queue_message (channel_id ctx) (log w') m ↔ m = next_message_id w)
      ∧ Send (channel_id ctx) (next_message_id w)
             (QueueEmbed (queue_rows (channel_id ctx) (queue_players w')))
        ∈ log w'.
Proof.
  intros ctx w. split; [apply scenario_world_coherent|].
  exact (leave_queue_shows_queue scenario_remove_player ctx w scenario_world_coherent).
Defined.

Lemma run_silent_iff_nan_witness :
  let find := scenario_find nan in
  let game := scenario_game nan in
  let ctx := scenario_ctx in
  let w := scenario_world in
  find (GameQueue (channel_id ctx) (queue_players w)) = Some game
  ∧ (run_matchmaking_logic find scenario_accept scenario_store 1 ctx w = Returned w
     ↔ is_nan (matchmaking_score game) = true).
Proof.
  intros find game ctx w. split; [apply scenario_find_game|].
  exact (run_silent_iff_nan find scenario_accept scenario_store 0 ctx w game
           (scenario_find_game nan)).
Defined.
